(** * Hercules forward solver: stiffness contribution (effective method)

    Shallow embedding of [quake/forward_gpu/stiffness.cu] (element selector,
    host evaluator, accelerator driver) and of the stiffness kernel file
    (per-element force kernel, per-node gather kernel and the
    coefficient/transform utilities), followed by the properties checked
    against them.

    Conventions.
    - A C [double] is a value of a type [D] carrying the operations the code
      uses ([Scalar]).  Two instances are given: [float] (IEEE binary64,
      Rocq's primitive floats, which is what the code runs on) and [Qc]
      (exact rationals, the algebra the method was derived in).
    - [int32_t] values are [Z]; the increments of counters and the products
      that index the scratch buffer are wrapped by [int32].
    - C arrays are lists indexed by [Z.to_nat] of the C index; [a[i]] is
      [a !!! i], [a[i] = v] is [<[i:=v]> a] and [a[i] += v] is an [alter].
      An access outside the block is undefined in C; here a read past the
      end gives the default element, a write past the end is dropped, and a
      negative index stands for cell 0.
    - [MPI_Abort]/[exit] is the [Aborted] outcome, carrying the line written
      to [stderr]. *)

From Stdlib Require Import ZArith QArith Qcanon Qcabs Floats Lia List Permutation.
From Stdlib Require Import String Sorted.
From stdpp Require Import base list numbers.

(** ** Scalars *)

Class Scalar (D : Type) := {
  d0 : D;                     (* the literal 0 *)
  d2 : D;                     (* 2. and the promoted int 2 *)
  d3 : D;                     (* 3. *)
  d9 : D;                     (* 9. *)
  d0_5625 : D;                (* 0.5625 *)
  UNDERFLOW_CAP_STIFFNESS : D;   (* #define UNDERFLOW_CAP_STIFFNESS 1e-20 *)
  dadd : D -> D -> D;
  dsub : D -> D -> D;
  dmul : D -> D -> D;
  ddiv : D -> D -> D;
  dneg : D -> D;
  fabs : D -> D;
  dgt : D -> D -> bool        (* x > y *)
}.

Declare Scope scalar_scope.
Delimit Scope scalar_scope with sc.
Infix "+" := dadd : scalar_scope.
Infix "-" := dsub : scalar_scope.
Infix "*" := dmul : scalar_scope.
Infix "/" := ddiv : scalar_scope.
Notation "- x" := (dneg x) : scalar_scope.

(** IEEE binary64.  [0x1.79ca10c924223p-67] is the binary64 value nearest to
    the decimal literal 1e-20. *)
#[export] Instance float_scalar : Scalar float := {
  d0 := 0%float;
  d2 := 2%float;
  d3 := 3%float;
  d9 := 9%float;
  d0_5625 := 0.5625%float;
  UNDERFLOW_CAP_STIFFNESS := 0x1.79ca10c924223p-67%float;
  dadd := PrimFloat.add;
  dsub := PrimFloat.sub;
  dmul := PrimFloat.mul;
  ddiv := PrimFloat.div;
  dneg := PrimFloat.opp;
  fabs := PrimFloat.abs;
  dgt x y := PrimFloat.ltb y x
}.

(** Exact rational arithmetic. *)
#[export] Instance Qc_scalar : Scalar Qc := {
  d0 := Q2Qc 0;
  d2 := Q2Qc 2;
  d3 := Q2Qc 3;
  d9 := Q2Qc 9;
  d0_5625 := Q2Qc (9 # 16);
  UNDERFLOW_CAP_STIFFNESS := Q2Qc (1 # 100000000000000000000);
  dadd := Qcplus;
  dsub := Qcminus;
  dmul := Qcmult;
  ddiv := Qcdiv;
  dneg := Qcopp;
  fabs := Qcabs;
  dgt x y := bool_decide (y < x)%Qc
}.

(** ** Vectors and the transform utilities *)

Section Kernel.
Context {D : Type} `{Scalar D}.
Local Open Scope scalar_scope.

#[export] Instance scalar_inhabited : Inhabited D := populate d0.

(** [typedef struct { double f[3]; } fvector_t;] *)
Record fvector_t : Type := FV { f_0 : D; f_1 : D; f_2 : D }.

(** [v.f[j]] *)
Definition f (v : fvector_t) (j : nat) : D :=
  match j with
  | O => f_0 v
  | S O => f_1 v
  | _ => f_2 v
  end.

(** An [fvector_t] whose bytes are all zero (what [memset] leaves). *)
Definition fzero : fvector_t := FV d0 d0 d0.

#[export] Instance fvector_inhabited : Inhabited fvector_t := populate fzero.

(** [vector_is_zero]: 1 when at least one component is "non-zero",
    0 when all the components are "zero". *)
Definition vector_is_zero (v : list fvector_t) : Z :=
  if existsb (fun i =>
       existsb (fun j => dgt (fabs (f (v !!! i) j)) UNDERFLOW_CAP_STIFFNESS)
               (seq 0 3))
     (seq 0 8)
  then 1%Z else 0%Z.

Definition reformF (u : list D) : list D :=
  [ u !!! 0;  u !!! 8;  u !!! 16;
    u !!! 1;  u !!! 9;  u !!! 17;
    u !!! 2;  u !!! 10; u !!! 18;
    u !!! 3;  u !!! 11; u !!! 19;
    u !!! 4;  u !!! 12; u !!! 20;
    u !!! 5;  u !!! 13; u !!! 21;
    u !!! 6;  u !!! 14; u !!! 22;
    u !!! 7;  u !!! 15; u !!! 23 ]%nat.

Definition reformU (u : list D) : list D :=
  [ u !!! 0;  u !!! 3;  u !!! 6;  u !!! 9;
    u !!! 12; u !!! 15; u !!! 18; u !!! 21;
    u !!! 1;  u !!! 4;  u !!! 7;  u !!! 10;
    u !!! 13; u !!! 16; u !!! 19; u !!! 22;
    u !!! 2;  u !!! 5;  u !!! 8;  u !!! 11;
    u !!! 14; u !!! 17; u !!! 20; u !!! 23 ]%nat.

(** The first loop of [aTransposeU]: [temp[i*3 + j] = un[i].f[j]]. *)
Definition arrange (un : list fvector_t) : list D :=
  flat_map (fun i => map (fun j => f (un !!! i) j) (seq 0 3)) (seq 0 8).

(** The eight sums of one axis block of [aTransposeU]; [o] is 0, 8 or 16. *)
Definition atu_block (u : list D) (o : nat) : list D :=
  let u0 := u !!! (o + 0)%nat in let u1 := u !!! (o + 1)%nat in
  let u2 := u !!! (o + 2)%nat in let u3 := u !!! (o + 3)%nat in
  let u4 := u !!! (o + 4)%nat in let u5 := u !!! (o + 5)%nat in
  let u6 := u !!! (o + 6)%nat in let u7 := u !!! (o + 7)%nat in
  [ d0;
    - u0 - u1 - u2 - u3 + u4 + u5 + u6 + u7;
    - u0 - u1 + u2 + u3 - u4 - u5 + u6 + u7;
    - u0 + u1 - u2 + u3 - u4 + u5 - u6 + u7;
      u0 + u1 - u2 - u3 - u4 - u5 + u6 + u7;
      u0 - u1 + u2 - u3 - u4 + u5 - u6 + u7;
      u0 - u1 - u2 + u3 + u4 - u5 - u6 + u7;
    - u0 + u1 + u2 - u3 + u4 - u5 - u6 + u7 ].

Definition aTransposeU (un : list fvector_t) : list D :=
  let temp := arrange un in
  let u := reformU temp in
  atu_block u 0 ++ atu_block u 8 ++ atu_block u 16.

(** [firstVector]; the parameters are declared in the order [a], [c], [b]. *)
Definition firstVector (atu : list D) (a c b : D) : list D :=
  let t (k : nat) := atu !!! k in
  [ d0;
    b * (t 19 + t 1);
    b * (t 11 + t 2);
    a * t 3 + c * (t 10 + t 17);
    b * (t 13 + t 22 + d2 * t 4) / d3;
    ((a + b) * t 5 + c * t 12) / d3;
    ((a + b) * t 6 + c * t 20) / d3;
    ((a + d2 * b) * t 7) / d9;

    d0;
    b * (t 18 + t 9);
    a * t 10 + c * (t 3 + t 17);
    b * (t 11 + t 2);
    ((a + b) * t 12 + c * t 5) / d3;
    b * (t 4 + t 22 + d2 * t 13) / d3;
    ((a + b) * t 14 + c * t 21) / d3;
    (a + d2 * b) * t 15 / d9;

    d0;
    a * t 17 + c * (t 3 + t 10);
    b * (t 18 + t 9);
    b * (t 19 + t 1);
    ((a + b) * t 20 + c * t 6) / d3;
    ((a + b) * t 21 + c * t 14) / d3;
    b * (t 4 + t 13 + d2 * t 22) / d3;
    (a + d2 * b) * t 23 / d9 ].

(** The eight sums of one axis block of [au]. *)
Definition au_block (u : list D) (o : nat) : list D :=
  let u0 := u !!! (o + 0)%nat in let u1 := u !!! (o + 1)%nat in
  let u2 := u !!! (o + 2)%nat in let u3 := u !!! (o + 3)%nat in
  let u4 := u !!! (o + 4)%nat in let u5 := u !!! (o + 5)%nat in
  let u6 := u !!! (o + 6)%nat in let u7 := u !!! (o + 7)%nat in
  [ u0 - u1 - u2 - u3 + u4 + u5 + u6 - u7;
    u0 - u1 - u2 + u3 + u4 - u5 - u6 + u7;
    u0 - u1 + u2 - u3 - u4 + u5 - u6 + u7;
    u0 - u1 + u2 + u3 - u4 - u5 + u6 - u7;
    u0 + u1 - u2 - u3 - u4 - u5 + u6 + u7;
    u0 + u1 - u2 + u3 - u4 + u5 - u6 - u7;
    u0 + u1 + u2 - u3 + u4 - u5 - u6 - u7;
    u0 + u1 + u2 + u3 + u4 + u5 + u6 + u7 ].

(** [au]: the result is the new content of [resVec[0..7]]. *)
Definition au (resVec : list fvector_t) (u : list D) : list fvector_t :=
  let finVec := au_block u 0 ++ au_block u 8 ++ au_block u 16 in
  let temp := reformF finVec in
  map (fun j =>
         let r := resVec !!! j in
         FV (f r 0 + temp !!! (j * 3 + 0)%nat)
            (f r 1 + temp !!! (j * 3 + 1)%nat)
            (f r 2 + temp !!! (j * 3 + 2)%nat))
      (seq 0 8).

End Kernel.

Arguments fvector_t D : clear implicits.
Arguments FV {D} _ _ _.

(** ** Mesh and solver data

    Only the fields the stiffness code reads or writes are kept. *)

(** [elem_t]: [int32_t lnid[8]], the node identifiers of the eight corners. *)
Record elem_t : Type := Elem { lnid : list Z }.

(** [e_t]: the two coefficients of an element. *)
Record e_t (D : Type) : Type := ET { c1 : D; c2 : D }.
Arguments ET {D} _ _.
Arguments c1 {D} _.
Arguments c2 {D} _.

(** [mesh_t] *)
Record mesh_t : Type := Mesh {
  lenum : Z;                    (* number of local elements *)
  nharbored : Z;                (* number of nodes held by this process *)
  elemTable : list elem_t
}.

(** [mysolver_t] *)
Record mysolver_t (D : Type) : Type := Solver {
  eTable : list (e_t D);
  tm1 : list (fvector_t D);     (* displacements at the current step *)
  force : list (fvector_t D)    (* the global nodal force accumulator *)
}.
Arguments Solver {D} _ _ _.
Arguments eTable {D} _.
Arguments tm1 {D} _.
Arguments force {D} _.

(** The reverse lookup table read by [kernelStiffnessAddLocal].  Its type is
    declared outside the files at hand; the fields are the ones the kernel
    reads: [revp->count], [revp->elements[i].elemid] and
    [revp->elements[i].offset]. *)
Record rev_elem_t : Type := RevElem { elemid : Z; offset : Z }.
Record rev_entry_t : Type := RevEntry { count : Z; elements : list rev_elem_t }.

#[export] Instance elem_inhabited : Inhabited elem_t := populate (Elem []).
#[export] Instance rev_elem_inhabited : Inhabited rev_elem_t :=
  populate (RevElem 0 0).
#[export] Instance rev_entry_inhabited : Inhabited rev_entry_t :=
  populate (RevEntry 0 []).

(** [int32_t] arithmetic: the value of a result brought back into
    [-2^31, 2^31). *)
Definition int32 (z : Z) : Z := ((z + 2147483648) mod 4294967296 - 2147483648)%Z.

Definition INT32_MAX : Z := 2147483647%Z.

(** ** The force of one element (effective method) *)

Section Force.
Context {D : Type} `{Scalar D}.
Local Open Scope scalar_scope.

#[export] Instance e_inhabited : Inhabited (e_t D) := populate (ET d0 d0).

(** [nodalForce->f[k] += v.f[k]] for [k = 0, 1, 2]. *)
Definition fvector_add (v nodalForce : fvector_t D) : fvector_t D :=
  FV (f nodalForce 0 + f v 0) (f nodalForce 1 + f v 1) (f nodalForce 2 + f v 2).

(** The three coefficients computed inside the [vector_is_zero] branch:
    [first_coeff], [second_coeff], [third_coeff]. *)
Definition effective_coefficients (ep : e_t D) : D * D * D :=
  ( - d0_5625 * (c2 ep + d2 * c1 ep),
    - d0_5625 * (c2 ep),
    - d0_5625 * (c1 ep) ).

(** [curDisp[i] = tm1[elemp->lnid[i]]] for the eight corners. *)
Definition current_displacement (tm1 : list (fvector_t D)) (elemp : elem_t)
  : list (fvector_t D) :=
  map (fun i =>
         let tm1Disp := tm1 !!! Z.to_nat (lnid elemp !!! i) in
         FV (f tm1Disp 0) (f tm1Disp 1) (f tm1Disp 2))
      (seq 0 8).

(** The coefficient/transform kernel applied to a displacement block:
    [localForce] is cleared, and when [vector_is_zero] answers non-zero the
    three steps [aTransposeU], [firstVector], [au] fill it. *)
Definition stiffness_kernel (curDisp : list (fvector_t D)) (ep : e_t D)
  : list (fvector_t D) :=
  let localForce := replicate 8 fzero in
  if negb (vector_is_zero curDisp =? 0)%Z then
    let '(first_coeff, second_coeff, third_coeff) := effective_coefficients ep in
    let atu := aTransposeU curDisp in
    let firstVec := firstVector atu first_coeff second_coeff third_coeff in
    au localForce firstVec
  else localForce.

(** The body shared, line for line, by the loop of
    [compute_addforce_effective_cpu] and by [kernelStiffnessCalcLocal]:
    the content of [localForce[0..7]] for one element. *)
Definition element_local_force (tm1 : list (fvector_t D))
    (elemp : elem_t) (ep : e_t D) : list (fvector_t D) :=
  stiffness_kernel (current_displacement tm1 elemp) ep.

(** ** Host evaluator *)

(** The last loop of the element body: the eight corner forces are added to
    the nodal entries. *)
Definition sum_to_nodes (elemp : elem_t) (localForce : list (fvector_t D))
    (force : list (fvector_t D)) : list (fvector_t D) :=
  foldl (fun force i =>
           alter (fvector_add (localForce !!! i))
                 (Z.to_nat (lnid elemp !!! i)) force)
        force (seq 0 8).

(** [compute_addforce_effective_cpu]; the result is the new content of
    [mySolver->force]. *)
Definition compute_addforce_effective_cpu
    (myLinearElementsCount : Z) (myLinearElementsMapper : list Z)
    (myMesh : mesh_t) (mySolver : mysolver_t D) : list (fvector_t D) :=
  foldl (fun force lin_eindex =>
           let eindex := myLinearElementsMapper !!! lin_eindex in
           let elemp := elemTable myMesh !!! Z.to_nat eindex in
           let ep := eTable mySolver !!! Z.to_nat eindex in
           sum_to_nodes elemp (element_local_force (tm1 mySolver) elemp ep) force)
        (force mySolver)
        (seq 0 (Z.to_nat myLinearElementsCount)).

(** ** Accelerator kernels *)

(** One thread of [kernelStiffnessCalcLocal]; [tid] is
    [blockIdx.x * blockDim.x + threadIdx.x].  The result is the new content
    of [localForceDevice]. *)
Definition kernelStiffnessCalcLocal
    (myLinearElementsCount : Z) (myLinearElementsMapperDevice : list Z)
    (elemTableDevice : list elem_t) (eTableDevice : list (e_t D))
    (tm1Device localForceDevice : list (fvector_t D)) (tid : Z)
  : list (fvector_t D) :=
  let lin_eindex := tid in
  if (lin_eindex >=? myLinearElementsCount)%Z then localForceDevice
  else
    let eindex := myLinearElementsMapperDevice !!! Z.to_nat lin_eindex in
    let elemp := elemTableDevice !!! Z.to_nat eindex in
    let ep := eTableDevice !!! Z.to_nat eindex in
    let localForce := element_local_force tm1Device elemp ep in
    foldl (fun mem i =>
             <[(Z.to_nat (int32 (lin_eindex * 8)) + i)%nat := localForce !!! i]> mem)
          localForceDevice (seq 0 8).

(** One thread of [kernelStiffnessAddLocal]; the result is the new content
    of [forceDevice]. *)
Definition kernelStiffnessAddLocal
    (nharbored : Z) (reverseLookupDevice : list rev_entry_t)
    (localForceDevice forceDevice : list (fvector_t D)) (tid : Z)
  : list (fvector_t D) :=
  let lnid := tid in
  if (lnid >=? nharbored)%Z then forceDevice
  else
    let revp := reverseLookupDevice !!! Z.to_nat lnid in
    foldl (fun forceDevice i =>
             let noffset := offset (elements revp !!! i) in
             let base := int32 (elemid (elements revp !!! i) * 8) in
             alter (fvector_add (localForceDevice !!! Z.to_nat (base + noffset)))
                   (Z.to_nat lnid) forceDevice)
          forceDevice (seq 0 (Z.to_nat (count revp))).

(** A launch [<<<gridsize, blocksize>>>] runs the thread body for every
    index below [gridsize * blocksize].  Each thread of the two kernels
    writes only cells that no other thread of the launch touches, so the
    threads are run here one after the other, in index order. *)
Definition launch {M : Type} (gridsize blocksize : Z) (thread : M -> Z -> M)
    (mem : M) : M :=
  foldl thread mem (seqZ 0 (gridsize * blocksize)).

(** Modelled from the spec: the driver at hand launches one kernel, and the
    launch of the gather kernel is not among the files.  "Launch one
    independent task per all mesh elements", then "launch one independent
    task per mesh node": the per-element force kernel over the element
    grid of the driver, then the gather kernel over a grid of the same
    shape for the nodes.  The result is the content of [localForceDevice]
    and of [forceDevice] after the two launches. *)
Definition accelerator_step
    (myLinearElementsCount : Z) (myLinearElementsMapperDevice : list Z)
    (myMesh : mesh_t) (eTableDevice : list (e_t D))
    (tm1Device : list (fvector_t D)) (reverseLookupDevice : list rev_entry_t)
    (blocksize : Z)
    (localForceDevice forceDevice : list (fvector_t D))
  : list (fvector_t D) * list (fvector_t D) :=
  let localForceDevice' :=
    launch (lenum myMesh / blocksize + 1) blocksize
      (kernelStiffnessCalcLocal myLinearElementsCount
         myLinearElementsMapperDevice (elemTable myMesh) eTableDevice tm1Device)
      localForceDevice in
  let forceDevice' :=
    launch (nharbored myMesh / blocksize + 1) blocksize
      (kernelStiffnessAddLocal (nharbored myMesh) reverseLookupDevice
         localForceDevice')
      forceDevice in
  (localForceDevice', forceDevice').

End Force.

(** ** Fatal exits and the accelerator runtime *)

(** [cudaError_t]: success, or one of the failure codes. *)
Inductive cudaError_t : Type :=
  | cudaSuccess
  | cudaFailure (code : positive).

#[export] Instance cudaError_eq_dec : EqDecision cudaError_t.
Proof. solve_decision. Defined.

(** A line written to [stderr] before [MPI_Abort]: its text, and the error
    whose [cudaGetErrorString] is printed in it, if any. *)
Record report : Type := Report {
  text : string;
  cuda_string : option cudaError_t
}.

(** A call returns, or ends the process after a report, or runs into an
    operation whose behaviour C leaves undefined (a store outside an
    allocated block, an integer division by zero): what happens then is
    not determined by the code. *)
Inductive outcome (A : Type) : Type :=
  | Done (a : A)
  | Aborted (r : report)
  | Undefined.
Arguments Done {A} a.
Arguments Aborted {A} r.
Arguments Undefined {A}.

#[export] Instance outcome_ret : MRet outcome := fun A a => Done a.

#[export] Instance outcome_bind : MBind outcome := fun A B k m =>
  match m with
  | Done a => k a
  | Aborted r => Aborted r
  | Undefined => Undefined
  end.

(** ** Element selector *)

Section Selector.
(** [isThisElementNonLinear(myMesh, eindex)]; [true] stands for [YES]. *)
Variable isThisElementNonLinear : mesh_t -> Z -> bool.

(** [linear_elements_count]; the value returned is the one stored in
    [myLinearElementsCount]. *)
Definition linear_elements_count (myMesh : mesh_t) : outcome Z :=
  let count :=
    foldl (fun count eindex =>
             if negb (isThisElementNonLinear myMesh eindex)
             then int32 (count + 1) else count)
          0%Z (seqZ 0 (lenum myMesh)) in
  if (count >? lenum myMesh)%Z then
    Aborted (Report "linear_elements_count: more elements than expected"%string None)
  else Done count.

(** [myLinearElementsMapper[count] = eindex; count++;] on a block of
    [length mapper] cells.  The store is defined only inside the block. *)
Definition store_and_count (mapper : list Z) (count eindex : Z)
  : outcome (list Z * Z) :=
  if bool_decide (0 <= count < Z.of_nat (length mapper))%Z
  then Done (<[Z.to_nat count := eindex]> mapper, int32 (count + 1))
  else Undefined.

(** The loop of [linear_elements_mapping] over the block of
    [myLinearElementsCount] cells that [XMALLOC_VAR_N] returns: the filled
    block and the final [count]. *)
Definition fill_mapper (myMesh : mesh_t) (myLinearElementsCount : Z)
  : outcome (list Z * Z) :=
  foldl (fun state eindex =>
           '(mapper, count) ← state;
           if negb (isThisElementNonLinear myMesh eindex)
           then store_and_count mapper count eindex
           else Done (mapper, count))
        (Done (replicate (Z.to_nat myLinearElementsCount) 0%Z, 0%Z))
        (seqZ 0 (lenum myMesh)).

(** [linear_elements_mapping]; [myLinearElementsCount] is the value the
    static variable holds at the call, the value returned is the content of
    [myLinearElementsMapper]. *)
Definition linear_elements_mapping (myMesh : mesh_t)
    (myLinearElementsCount : Z) : outcome (list Z) :=
  '(mapper, count) ← fill_mapper myMesh myLinearElementsCount;
  if negb (count =? myLinearElementsCount)%Z then
    Aborted (Report "linear_elements_mapping: more elements than the count"%string None)
  else Done mapper.

(** The static variables of the module after [stiffness_init]. *)
Record stiffness_globals : Type := Globals {
  myLinearElementsCount : Z;
  myLinearElementsMapper : list Z;
  myLinearElementsMapperDevice : list Z;
  calcForceBlockSize : Z
}.

(** What the runtime answers to the two device calls of [stiffness_init]. *)
Record init_runtime : Type := InitRuntime {
  malloc_status : cudaError_t;
  mapper_copy_status : cudaError_t
}.

(** [stiffness_init]; [gpu_get_blocksize] is the value the tuning probe
    returns. *)
Definition stiffness_init (rt : init_runtime) (gpu_get_blocksize : Z)
    (myMesh : mesh_t) : outcome stiffness_globals :=
  count ← linear_elements_count myMesh;
  mapper ← linear_elements_mapping myMesh count;
  if negb (bool_decide (malloc_status rt = cudaSuccess)) then
    Aborted (Report "Failed to allocate mapper memory"%string None)
  else if negb (bool_decide (mapper_copy_status rt = cudaSuccess)) then
    Aborted (Report "Failed to copy mapper to device - %s"%string
                    (Some (mapper_copy_status rt)))
  else
    Done (Globals count mapper mapper gpu_get_blocksize).

End Selector.

(** ** Accelerator driver *)

Section Driver.
Context {D : Type} `{Scalar D}.

(** Host and device views of the force accumulator, with the error the
    runtime remembers for [cudaGetLastError]. *)
Record machine : Type := Machine {
  host_force : list (fvector_t D);      (* mySolver->force *)
  forceDevice : list (fvector_t D);     (* mySolver->gpuData->forceDevice *)
  last_error : cudaError_t
}.

(** What the runtime answers to the three device operations of a step. *)
Record step_runtime : Type := StepRuntime {
  to_device_status : cudaError_t;
  launch_status : cudaError_t;
  to_host_status : cudaError_t
}.

(** [cudaMemcpy(dst, src, n * sizeof(fvector_t), kind)]: the first [n] cells
    of [dst] are replaced by those of [src]. *)
Definition copy_cells (n : Z) (src dst : list (fvector_t D))
  : list (fvector_t D) :=
  take (Z.to_nat n) src ++ drop (Z.to_nat n) dst.

(** A failing runtime call does nothing but record its error. *)
Definition record_error (status : cudaError_t) (m : machine) : machine :=
  Machine (host_force m) (forceDevice m) status.

(** [cudaGetLastError()]: returns the recorded error and resets it. *)
Definition cudaGetLastError (m : machine) : cudaError_t * machine :=
  (last_error m, Machine (host_force m) (forceDevice m) cudaSuccess).

(** [(myMesh->lenum / blocksize) + 1] on [int]: the quotient truncates
    towards zero.  The division is undefined for a zero divisor and for the
    one quotient that does not fit, and so is the sum when it does not
    fit. *)
Definition grid_size (lenum blocksize : Z) : option Z :=
  if (blocksize =? 0)%Z
     || ((lenum =? -2147483648)%Z && (blocksize =? -1)%Z)
     || (Z.quot lenum blocksize + 1 >? INT32_MAX)%Z
  then None
  else Some (Z.quot lenum blocksize + 1)%Z.

(** [compute_addforce_effective_gpu].  [calcForceBlockSize] is the value
    the static variable holds at the call.  The launch names
    [kernelStiffnessCalcLocal] with four arguments, and the kernel of that
    name among the files takes six: [kernel gridsize blocksize] stands for
    the effect on [forceDevice] of whatever the launch
    [<<<gridsize, blocksize, sharedmem>>>] runs. *)
Definition compute_addforce_effective_gpu (rt : step_runtime)
    (calcForceBlockSize : Z)
    (kernel : Z -> Z -> list (fvector_t D) -> list (fvector_t D))
    (myMesh : mesh_t) (m : machine) : outcome machine :=
  (* cudaMemcpy(forceDevice, force, ..., cudaMemcpyHostToDevice); result unused *)
  let m :=
    if bool_decide (to_device_status rt = cudaSuccess)
    then Machine (host_force m)
                 (copy_cells (nharbored myMesh) (host_force m) (forceDevice m))
                 (last_error m)
    else record_error (to_device_status rt) m in
  (* int blocksize = calcForceBlockSize;
     int gridsize = (myMesh->lenum / blocksize) + 1; *)
  let blocksize := calcForceBlockSize in
  match grid_size (lenum myMesh) blocksize with
  | None => Undefined
  | Some gridsize =>
    (* cudaGetLastError(); *)
    let m := snd (cudaGetLastError m) in
    (* kernel<<<gridsize, blocksize, sharedmem>>>(...) *)
    let m :=
      if bool_decide (launch_status rt = cudaSuccess)
      then Machine (host_force m) (kernel gridsize blocksize (forceDevice m))
                   (last_error m)
      else record_error (launch_status rt) m in
    (* cudaError_t cerror = cudaGetLastError(); *)
    let '(cerror, m) := cudaGetLastError m in
    if negb (bool_decide (cerror = cudaSuccess)) then
      Aborted (Report "Calc stiffness local kernel - %s"%string (Some cerror))
    else
      (* cudaMemcpy(force, forceDevice, ..., cudaMemcpyDeviceToHost); result unused *)
      let m :=
        if bool_decide (to_host_status rt = cudaSuccess)
        then Machine (copy_cells (nharbored myMesh) (forceDevice m) (host_force m))
                     (forceDevice m) (last_error m)
        else record_error (to_host_status rt) m in
      Done m
  end.

End Driver.

Arguments machine D : clear implicits.
Arguments Machine {D} _ _ _.

(** ** Statements used by the properties *)

(** A scalar type with the comparison [<=], and the one law that ties it to
    the [>] of the near-zero test. *)
Class ScalarOrder (D : Type) `{Scalar D} : Type := {
  dle : D -> D -> bool;
  dle_not_dgt : forall x y : D, dle x y = true -> dgt x y = false
}.

(** The magnitude of every one of the 24 components is at most the
    threshold.  In binary64 the threshold is the value nearest to 1e-20,
    which lies under it, and the next value lies over it: the binary64
    values of magnitude at most the threshold are those below 1e-20. *)
Definition below_cap {D : Type} `{ScalarOrder D} (v : list (fvector_t D)) : Prop :=
  forall i j : nat, (i < 8)%nat -> (j < 3)%nat ->
    dle (fabs (f (v !!! i) j)) UNDERFLOW_CAP_STIFFNESS = true.

(** ** Sample data

    A single unit hexahedron: eight nodes, one element. *)

Definition unit_hexahedron : elem_t := Elem [0; 1; 2; 3; 4; 5; 6; 7]%Z.

(** The coefficients of the reference scenario: [c1 = 2], [c2 = 1]. *)
Definition float_coefficients : e_t float := ET 2%float 1%float.
Definition exact_coefficients : e_t Qc := ET (Q2Qc 2) (Q2Qc 1).

(** Every node displaced by [2^-70] along x: below the threshold, not zero. *)
Definition tiny_displacement : list (fvector_t float) :=
  replicate 8 (FV 0x1p-70%float 0%float 0%float).

(** Every node displaced by the same vector [(x, y, z)]. *)
Definition rigid_translation {D : Type} (x y z : D) : list (fvector_t D) :=
  replicate 8 (FV x y z).


(** A displacement block whose three axis sums vanish: nodes 0 and 1 move
    by opposite amounts along x. *)
Definition balanced_displacement : list (fvector_t Qc) :=
  FV (Q2Qc 1) (Q2Qc 0) (Q2Qc 0) :: FV (Q2Qc (-1)) (Q2Qc 0) (Q2Qc 0)
  :: replicate 6 fzero.

(** A displacement block whose three axis sums vanish, with a large and a
    small pair along x: [big], [one], [-big], [-one] at nodes 0 to 3. *)
Definition cancelling_block {D : Type} `{Scalar D} (big one : D)
  : list (fvector_t D) :=
  [FV big d0 d0; FV one d0 d0; FV (dneg big) d0 d0; FV (dneg one) d0 d0;
   fzero; fzero; fzero; fzero].

(** Twenty-four distinct scalars. *)
Definition sample_block : list Qc := map (fun k => Q2Qc (Z.of_nat k # 1)) (seq 0 24).

(** A mesh of five elements; elements 1 and 3 are nonlinear. *)
Definition five_elements : mesh_t := Mesh 5 0 [].
Definition odd_is_nonlinear (myMesh : mesh_t) (eindex : Z) : bool := Z.odd eindex.

(** Two hexahedra with separate nodes, 16 nodes in all; node 8 (corner 0 of
    the second element) is displaced by 1 along x. *)
Definition two_elements : mesh_t :=
  Mesh 2 16 [Elem [0; 1; 2; 3; 4; 5; 6; 7]%Z;
             Elem [8; 9; 10; 11; 12; 13; 14; 15]%Z].

Definition two_elements_solver : mysolver_t Qc :=
  Solver [exact_coefficients; exact_coefficients]
         (replicate 8 fzero ++ FV (Q2Qc 1) (Q2Qc 0) (Q2Qc 0) :: replicate 7 fzero)
         (replicate 16 fzero).

(** The first element of a mesh is nonlinear, the others are not. *)
Definition first_is_nonlinear (myMesh : mesh_t) (eindex : Z) : bool :=
  (eindex =? 0)%Z.

(** The numerators and denominators of a vector, for comparisons. *)
Definition fractions (v : fvector_t Qc) : Q * Q * Q :=
  (this (f_0 v), this (f_1 v), this (f_2 v)).

(** A runtime in which the three device operations of a step succeed. *)
Definition step_ok : step_runtime :=
  StepRuntime cudaSuccess cudaSuccess cudaSuccess.

(** ** The round-trip laws in the words of the specification *)

(** [s * v], component by component, for the eight corner vectors. *)
Definition scale_vectors (s : Qc) (un : list (fvector_t Qc))
  : list (fvector_t Qc) :=
  map (fun v => FV (s * f_0 v)%Qc (s * f_1 v)%Qc (s * f_2 v)%Qc) un.

(** "Forward transform composed with inverse transform, with [a = b = c]
    chosen to make the combine step the identity-scaled map, recovers the
    original vector up to a known scale factor": some common value [t] of
    the coefficients and some non-zero factor [s] make the three steps send
    every displacement block [un] to [s * un]. *)
Definition transform_round_trip_as_stated : Prop :=
  exists t s : Qc, s <> Q2Qc 0 /\
    forall un : list (fvector_t Qc), length un = 8%nat ->
      au (replicate 8 fzero) (firstVector (aTransposeU un) t t t)
      = scale_vectors s un.

(** The same without the combine step: [au] applied to the output of
    [aTransposeU]. *)
Definition direct_round_trip_as_stated : Prop :=
  exists s : Qc, s <> Q2Qc 0 /\
    forall un : list (fvector_t Qc), length un = 8%nat ->
      au (replicate 8 fzero) (aTransposeU un) = scale_vectors s un.

(** The sum over the eight corners of component [j]. *)
Definition axis_sum (un : list (fvector_t Qc)) (j : nat) : Qc :=
  foldr Qcplus (Q2Qc 0) (map (fun v => f v j) un).

(** What [au] after [aTransposeU] computes: eight times each component,
    minus the sum of that component over the eight corners. *)
Definition eight_minus_axis_sum (un : list (fvector_t Qc))
  : list (fvector_t Qc) :=
  map (fun v => FV (Q2Qc 8 * f_0 v - axis_sum un 0)%Qc
                   (Q2Qc 8 * f_1 v - axis_sum un 1)%Qc
                   (Q2Qc 8 * f_2 v - axis_sum un 2)%Qc) un.

(** ** The selector in the words of the specification *)

(** "Exactly those elements for which the nonlinear predicate is false",
    in element-index order. *)
Definition linear_indices (isNonlinear : mesh_t -> Z -> bool) (myMesh : mesh_t)
  : list Z :=
  filter (fun eindex => isNonlinear myMesh eindex = false)
         (seqZ 0 (lenum myMesh)).

(** An [outcome] that is a fatal exit. *)
Definition aborts {A : Type} (o : outcome A) : Prop :=
  match o with
  | Done _ => False
  | Aborted _ => True
  | Undefined => False
  end.

(** ** Sums of contributions *)

(** [a], then [+=] of each vector of [l], from left to right. *)
Definition accumulate {D : Type} `{Scalar D} (a : fvector_t D)
    (l : list (fvector_t D)) : fvector_t D :=
  foldl (fun acc v => fvector_add v acc) a l.

(** The vectors that a list of [(node, vector)] updates holds for [n]. *)
Definition contributions {D : Type} (n : nat) (ups : list (nat * fvector_t D))
  : list (fvector_t D) :=
  snd <$> filter (fun u => fst u = n) ups.

(** The updates [compute_addforce_effective_cpu] performs, in the order it
    performs them: for each position of the mapping, for each corner, the
    node and the corner force. *)
Definition host_updates {D : Type} `{Scalar D}
    (myLinearElementsCount : Z) (myLinearElementsMapper : list Z)
    (myMesh : mesh_t) (mySolver : mysolver_t D) : list (nat * fvector_t D) :=
  flat_map (fun lin_eindex =>
              let eindex := myLinearElementsMapper !!! lin_eindex in
              let elemp := elemTable myMesh !!! Z.to_nat eindex in
              let ep := eTable mySolver !!! Z.to_nat eindex in
              let localForce := element_local_force (tm1 mySolver) elemp ep in
              map (fun i => (Z.to_nat (lnid elemp !!! i), localForce !!! i))
                  (seq 0 8))
           (seq 0 (Z.to_nat myLinearElementsCount)).

(** The vectors thread [n] of [kernelStiffnessAddLocal] reads, in order. *)
Definition gathered {D : Type} `{Scalar D} (reverseLookupDevice : list rev_entry_t)
    (localForceDevice : list (fvector_t D)) (n : nat) : list (fvector_t D) :=
  let revp := reverseLookupDevice !!! n in
  map (fun i =>
         localForceDevice !!! Z.to_nat (int32 (elemid (elements revp !!! i) * 8)
                                        + offset (elements revp !!! i)))
      (seq 0 (Z.to_nat (count revp))).

(** The updates one thread of [kernelStiffnessAddLocal] performs: what it
    reads, all onto its own node. *)
Definition gather_updates {D : Type} `{Scalar D} (nharbored : Z)
    (rev : list rev_entry_t) (lfd : list (fvector_t D)) (tid : Z)
  : list (nat * fvector_t D) :=
  if (tid >=? nharbored)%Z then []
  else (fun v => (Z.to_nat tid, v)) <$> gathered rev lfd (Z.to_nat tid).

(** ** The reverse lookup table *)

(** The (element, corner) pairs of the mesh, element by element. *)
Definition corner_pairs (myMesh : mesh_t) : list (nat * nat) :=
  flat_map (fun e => map (fun o => (e, o)) (seq 0 8))
           (seq 0 (Z.to_nat (lenum myMesh))).

(** The pairs whose corner is node [n]. *)
Definition pairs_of_node (myMesh : mesh_t) (n : nat) : list (nat * nat) :=
  filter (fun p => lnid (elemTable myMesh !!! fst p) !!! snd p = Z.of_nat n)
         (corner_pairs myMesh).

Definition rev_elem_of_pair (p : nat * nat) : rev_elem_t :=
  RevElem (Z.of_nat (fst p)) (Z.of_nat (snd p)).

(** Modelled from the spec: the code that builds the reverse lookup table is
    not among the files at hand.  "For all elements and all 8 corners, the
    (element, corner) pair appears in the reverse table entry of exactly the
    node referenced by that corner - no duplicates, no omissions": the
    entries of node [n] are, in some order, the pairs of the mesh whose
    corner is [n]. *)
Definition rev_complete (myMesh : mesh_t) (rev : list rev_entry_t) : Prop :=
  forall n : nat, (Z.of_nat n < nharbored myMesh)%Z ->
    (0 <= count (rev !!! n))%Z
    /\ (Z.to_nat (count (rev !!! n)) <= length (elements (rev !!! n)))%nat
    /\ take (Z.to_nat (count (rev !!! n))) (elements (rev !!! n))
       ≡ₚ rev_elem_of_pair <$> pairs_of_node myMesh n.

(** The same with the entries of each node in element order, corner by
    corner. *)
Definition rev_in_order (myMesh : mesh_t) (rev : list rev_entry_t) : Prop :=
  forall n : nat, (Z.of_nat n < nharbored myMesh)%Z ->
    (0 <= count (rev !!! n))%Z
    /\ (Z.to_nat (count (rev !!! n)) <= length (elements (rev !!! n)))%nat
    /\ take (Z.to_nat (count (rev !!! n))) (elements (rev !!! n))
       = rev_elem_of_pair <$> pairs_of_node myMesh n.

(** Modelled from the spec: a table built "once from the mesh topology",
    each node listing its pairs in element order. *)
Definition reverse_lookup (myMesh : mesh_t) : list rev_entry_t :=
  map (fun n =>
         let ps := pairs_of_node myMesh n in
         RevEntry (Z.of_nat (length ps)) (rev_elem_of_pair <$> ps))
      (seq 0 (Z.to_nat (nharbored myMesh))).

(** Every node identifier of every element is a node of the mesh. *)
Definition mesh_wf (myMesh : mesh_t) : Prop :=
  (0 <= lenum myMesh)%Z /\ (0 <= nharbored myMesh)%Z
  /\ forall e o : nat, (e < Z.to_nat (lenum myMesh))%nat -> (o < 8)%nat ->
       (0 <= lnid (elemTable myMesh !!! e) !!! o < nharbored myMesh)%Z.

(** No element is nonlinear: the mapping is the identity on the element
    indices. *)
Definition all_linear (myMesh : mesh_t) (myLinearElementsCount : Z)
    (myLinearElementsMapper : list Z) : Prop :=
  myLinearElementsCount = lenum myMesh
  /\ forall p : nat, (p < Z.to_nat (lenum myMesh))%nat ->
       myLinearElementsMapper !!! p = Z.of_nat p.

(** ** The accumulator contract in the words of the specification *)

(** "Mutated additively", "adds into it": [a], then every vector of [l]
    added to it component by component, from left to right. *)
Definition added_in_order {D : Type} `{Scalar D} (a : fvector_t D)
    (l : list (fvector_t D)) : fvector_t D :=
  foldl (fun acc v =>
           FV (dadd (f_0 acc) (f_0 v)) (dadd (f_1 acc) (f_1 v))
              (dadd (f_2 acc) (f_2 v)))
        a l.

(** "Replaced wholesale (accelerator path)", "overwrites the
    accelerator-resident copy": after the gather launch the device entry of
    a node is the reduction of what was gathered for it, whatever it held
    before. *)
Definition device_copy_replaced_as_stated : Prop :=
  forall (gridsize blocksize nharbored : Z) (rev : list rev_entry_t)
         (lfd fd : list (fvector_t float)) (n : nat),
    (Z.of_nat n < nharbored)%Z -> (Z.of_nat n < gridsize * blocksize)%Z ->
    (n < length fd)%nat ->
    launch gridsize blocksize (kernelStiffnessAddLocal nharbored rev lfd) fd !! n
    = Some (added_in_order fzero (gathered rev lfd n)).

(** [two_elements] in binary64: node 8 is displaced by 1 along x, and every
    node already holds the force [(5, 0, 0)]. *)
Definition two_elements_loaded : mysolver_t float :=
  Solver [float_coefficients; float_coefficients]
         (replicate 8 fzero ++ FV 1%float 0%float 0%float :: replicate 7 fzero)
         (replicate 16 (FV 5%float 0%float 0%float)).

(** A per-element buffer for [two_elements] whose cell 8 (element 1,
    corner 0) holds [(1, 2, 3)], and a reverse table in which node 8 lists
    that cell. *)
Definition one_cell_buffer : list (fvector_t float) :=
  replicate 8 fzero ++ FV 1%float 2%float 3%float :: replicate 7 fzero.
Definition node_8_table : list rev_entry_t :=
  replicate 8 (RevEntry 0 []) ++ RevEntry 1 [RevElem 1 0]
  :: replicate 7 (RevEntry 0 []).

(** A launch that writes [(1, 2, 3)] to the device entry of node 8. *)
Definition writes_node_8 (gridsize blocksize : Z)
    (forceDevice : list (fvector_t float)) : list (fvector_t float) :=
  <[8%nat := FV 1%float 2%float 3%float]> forceDevice.

(** ** Gather against scatter, in the words of the specification *)

(** The device accumulator after the two launches of a step, started from
    the host accumulator. *)
Definition accelerator_force {D : Type} `{Scalar D}
    (myLinearElementsCount : Z) (myLinearElementsMapper : list Z)
    (myMesh : mesh_t) (mySolver : mysolver_t D) (rev : list rev_entry_t)
    (blocksize : Z) (localForceDevice : list (fvector_t D))
  : list (fvector_t D) :=
  snd (accelerator_step myLinearElementsCount myLinearElementsMapper myMesh
         (eTable mySolver) (tm1 mySolver) rev blocksize localForceDevice
         (force mySolver)).

(** "Summing per-element force contributions via the Reverse Adjacency Table
    gather yields, for every node, the same total as directly scattering":
    for the mapping the selector builds from any predicate, a complete
    reverse table and a scratch buffer of eight cells per element, the two
    paths leave the same force at every node.  Exact arithmetic stands for
    "within floating-point tolerance". *)
Definition gather_equals_scatter_as_stated : Prop :=
  forall (isNL : mesh_t -> Z -> bool) (myMesh : mesh_t)
         (mySolver : mysolver_t Qc) (rev : list rev_entry_t) (blocksize : Z)
         (lfd : list (fvector_t Qc)) (n : nat),
    mesh_wf myMesh -> rev_complete myMesh rev -> (0 < blocksize)%Z ->
    ((lenum myMesh + blocksize) * 8 <= INT32_MAX)%Z ->
    (Z.to_nat (lenum myMesh) * 8 <= length lfd)%nat ->
    (Z.of_nat n < nharbored myMesh)%Z ->
    let mapper := linear_indices isNL myMesh in
    let cnt := Z.of_nat (length mapper) in
    accelerator_force cnt mapper myMesh mySolver rev blocksize lfd !! n
    = compute_addforce_effective_cpu cnt mapper myMesh mySolver !! n.

(** ** The transform as an operator on displacement blocks *)

(** The three steps run on the branch where [vector_is_zero] answers
    non-zero: [aTransposeU], [firstVector], then [au] into a cleared
    [localForce].  The coefficients come in the order of the parameters of
    [firstVector]. *)
Definition effective_transform {D : Type} `{Scalar D}
    (un : list (fvector_t D)) (a c b : D) : list (fvector_t D) :=
  au (replicate 8 fzero) (firstVector (aTransposeU un) a c b).

(** Corner by corner sum of two blocks. *)
Definition block_add (u v : list (fvector_t Qc)) : list (fvector_t Qc) :=
  zip_with (fun x y => FV (f_0 x + f_0 y)%Qc (f_1 x + f_1 y)%Qc
                          (f_2 x + f_2 y)%Qc) u v.

(** The work of the forces [u] on the displacements [v]: the sum over the
    eight corners of the scalar products. *)
Definition block_dot (u v : list (fvector_t Qc)) : Qc :=
  foldr Qcplus (Q2Qc 0)
        (zip_with (fun x y => (f_0 x * f_0 y + f_1 x * f_1 y + f_2 x * f_2 y)%Qc)
                  u v).

(** The positions the entries of [reformU] and of [reformF] are read from. *)
Definition reformU_index : list nat :=
  [0; 3; 6; 9; 12; 15; 18; 21; 1; 4; 7; 10; 13; 16; 19; 22;
   2; 5; 8; 11; 14; 17; 20; 23]%nat.

Definition reformF_index : list nat :=
  [0; 8; 16; 1; 9; 17; 2; 10; 18; 3; 11; 19; 4; 12; 20; 5; 13; 21;
   6; 14; 22; 7; 15; 23]%nat.

(** The corners of the element as the sign rows of [aTransposeU] number
    them: row 3 of a block is the x sign of each corner, row 2 its y sign
    and row 1 its z sign. *)
Definition corner_x : list Qc := Q2Qc <$> [-1; 1; -1; 1; -1; 1; -1; 1]%Q.
Definition corner_y : list Qc := Q2Qc <$> [-1; -1; 1; 1; -1; -1; 1; 1]%Q.
Definition corner_z : list Qc := Q2Qc <$> [-1; -1; -1; -1; 1; 1; 1; 1]%Q.

(** The displacement of the corners under an infinitesimal rotation
    [w = (wx, wy, wz)] about the centre of the element: [w x r] at each
    corner [r]. *)
Definition rigid_rotation (wx wy wz : Qc) : list (fvector_t Qc) :=
  map (fun k =>
         let x := corner_x !!! k in
         let y := corner_y !!! k in
         let z := corner_z !!! k in
         FV (wy * z - wz * y)%Qc (wz * x - wx * z)%Qc (wx * y - wy * x)%Qc)
      (seq 0 8).

(** The transform with the coefficients of an element, as the
    [vector_is_zero] branch computes it. *)
Definition transform_with {D : Type} `{Scalar D}
    (un : list (fvector_t D)) (ep : e_t D) : list (fvector_t D) :=
  let '(first_coeff, second_coeff, third_coeff) := effective_coefficients ep in
  effective_transform un first_coeff second_coeff third_coeff.

(** A displacement block with 24 distinct components. *)
Definition sample_displacement : list (fvector_t Qc) :=
  map (fun k => FV (Q2Qc (Z.of_nat (3 * k) # 1))
                   (Q2Qc (Z.of_nat (3 * k + 1) # 7))
                   (Q2Qc (- Z.of_nat (3 * k + 2) # 5)))
      (seq 0 8).

(** ** The conventional evaluator *)

Section Conventional.
Context {D : Type} `{Scalar D}.
Local Open Scope scalar_scope.

(** [fmatrix_t], [MultAddMatVec] and [vector_is_all_zero] are declared
    outside the files at hand and stay parameters.
    [MultAddMatVec M V1 c V2] is the content of [*V2] after the call
    [MultAddMatVec(&M, &V1, c, &V2)]. *)
Context {fmatrix_t : Type} `{Inhabited fmatrix_t}.
Variable MultAddMatVec :
  fmatrix_t -> fvector_t D -> D -> fvector_t D -> fvector_t D.
Variable vector_is_all_zero : fvector_t D -> Z.

(** Step 1 of the element body of [compute_addforce_conventional]: the
    content of [localForce[0..7]] after the two nested loops. *)
Definition conventional_local_force
    (theK1 theK2 : list (list fmatrix_t))
    (tm1 : list (fvector_t D)) (elemp : elem_t) (ep : e_t D)
  : list (fvector_t D) :=
  map (fun i =>
         foldl (fun toForce j =>
                  let nodeJ := lnid elemp !!! j in
                  let myDisp := tm1 !!! Z.to_nat nodeJ in
                  if negb (vector_is_all_zero myDisp =? 0)%Z then
                    let toForce :=
                      MultAddMatVec ((theK1 !!! i) !!! j) myDisp (- c1 ep) toForce in
                    MultAddMatVec ((theK2 !!! i) !!! j) myDisp (- c2 ep) toForce
                  else toForce)
               fzero (seq 0 8))
      (seq 0 8).

(** [compute_addforce_conventional]; the result is the new content of
    [mySolver->force]. *)
Definition compute_addforce_conventional
    (myLinearElementsCount : Z) (myLinearElementsMapper : list Z)
    (myMesh : mesh_t) (mySolver : mysolver_t D)
    (theK1 theK2 : list (list fmatrix_t)) : list (fvector_t D) :=
  foldl (fun force lin_eindex =>
           let eindex := myLinearElementsMapper !!! lin_eindex in
           let elemp := elemTable myMesh !!! Z.to_nat eindex in
           let ep := eTable mySolver !!! Z.to_nat eindex in
           sum_to_nodes elemp
             (conventional_local_force theK1 theK2 (tm1 mySolver) elemp ep)
             force)
        (force mySolver)
        (seq 0 (Z.to_nat myLinearElementsCount)).

End Conventional.

(** ** Statements on the evaluators *)

(** No corner of a linear element is node [n]. *)
Definition untouched (myLinearElementsCount : Z)
    (myLinearElementsMapper : list Z) (myMesh : mesh_t) (n : nat) : Prop :=
  forall lin_eindex i : nat,
    (lin_eindex < Z.to_nat myLinearElementsCount)%nat -> (i < 8)%nat ->
    Z.to_nat (lnid (elemTable myMesh
                      !!! Z.to_nat (myLinearElementsMapper !!! lin_eindex)) !!! i)
    <> n.

(** The displacements gathered for every linear element are within the
    threshold. *)
Definition quiescent {D : Type} `{ScalarOrder D}
    (myLinearElementsCount : Z) (myLinearElementsMapper : list Z)
    (myMesh : mesh_t) (tm1 : list (fvector_t D)) : Prop :=
  forall lin_eindex : nat,
    (lin_eindex < Z.to_nat myLinearElementsCount)%nat ->
    below_cap (current_displacement tm1
                 (elemTable myMesh
                    !!! Z.to_nat (myLinearElementsMapper !!! lin_eindex))).

(** [vector_is_all_zero] answers 0 for the displacement of every corner of
    every linear element. *)
Definition unmoved {D : Type} `{Scalar D} (vector_is_all_zero : fvector_t D -> Z)
    (myLinearElementsCount : Z) (myLinearElementsMapper : list Z)
    (myMesh : mesh_t) (tm1 : list (fvector_t D)) : Prop :=
  forall lin_eindex j : nat,
    (lin_eindex < Z.to_nat myLinearElementsCount)%nat -> (j < 8)%nat ->
    vector_is_all_zero
      (tm1 !!! Z.to_nat
         (lnid (elemTable myMesh
                  !!! Z.to_nat (myLinearElementsMapper !!! lin_eindex)) !!! j))
    = 0%Z.

(** Instances of the two parameters of the conventional evaluator for the
    examples, the functions themselves being outside the files at hand:
    [V2 += c * M * V1] with a matrix given as the list of its three rows,
    and a test that answers 0 for the vector whose components are all 0. *)
Definition MultAddMatVec_exact (M : list (list Qc)) (V1 : fvector_t Qc)
    (c : Qc) (V2 : fvector_t Qc) : fvector_t Qc :=
  let row (k : nat) : Qc :=
    ((M !!! k) !!! 0%nat * f_0 V1 + (M !!! k) !!! 1%nat * f_1 V1
     + (M !!! k) !!! 2%nat * f_2 V1)%Qc in
  FV (f_0 V2 + c * row 0%nat)%Qc (f_1 V2 + c * row 1%nat)%Qc
     (f_2 V2 + c * row 2%nat)%Qc.

Definition vector_is_all_zero_exact (v : fvector_t Qc) : Z :=
  if bool_decide (f_0 v = Q2Qc 0 /\ f_1 v = Q2Qc 0 /\ f_2 v = Q2Qc 0)
  then 0%Z else 1%Z.

(** The identity matrix in every one of the 8 x 8 places of a table. *)
Definition identity_table : list (list (list (list Qc))) :=
  replicate 8 (replicate 8 [[Q2Qc 1; Q2Qc 0; Q2Qc 0];
                            [Q2Qc 0; Q2Qc 1; Q2Qc 0];
                            [Q2Qc 0; Q2Qc 0; Q2Qc 1]]).

(** The displacement field of [two_elements_solver] brought to rest. *)
Definition two_elements_at_rest : mysolver_t Qc :=
  Solver [exact_coefficients; exact_coefficients]
         (replicate 16 fzero)
         (replicate 8 (FV (Q2Qc 1) (Q2Qc 2) (Q2Qc 3)) ++ replicate 8 fzero).

(** Every one of the 24 components is a NaN or has a magnitude within the
    threshold (binary64). *)
Definition nan_or_below_cap (v : list (fvector_t float)) : Prop :=
  forall i j : nat, (i < 8)%nat -> (j < 3)%nat ->
    PrimFloat.is_nan (f (v !!! i) j) = true
    \/ PrimFloat.leb (PrimFloat.abs (f (v !!! i) j)) UNDERFLOW_CAP_STIFFNESS
       = true.

(** A block with a NaN at corner 0 and zeros elsewhere. *)
Definition nan_block : list (fvector_t float) :=
  FV PrimFloat.nan 0%float 0%float :: replicate 7 fzero.

(** [two_elements] with a node of each element displaced, and different
    coefficients for the two elements. *)
Definition two_elements_moving : mysolver_t Qc :=
  Solver [exact_coefficients; ET (Q2Qc 3) (Q2Qc 5)]
         (FV (Q2Qc 0) (Q2Qc 1) (Q2Qc 0) :: replicate 7 fzero
          ++ FV (Q2Qc 1) (Q2Qc 0) (Q2Qc 0) :: replicate 7 fzero)
         (replicate 16 fzero).

(** * Properties *)

(** ** Comparison of scalars *)

Lemma SFcompare_antisym (a b : spec_float) :
  SFcompare b a = option_map CompOpp (SFcompare a b).
Proof.
  destruct a as [sa|sa| |sa ma ea], b as [sb|sb| |sb mb eb];
    repeat match goal with s : bool |- _ => destruct s end;
    try reflexivity; cbn [SFcompare option_map];
    rewrite (Z.compare_antisym ea eb);
    destruct (ea ?= eb)%Z; cbn [CompOpp]; try reflexivity;
    rewrite (Pos.compare_cont_antisym ma mb Eq); cbn [CompOpp];
    destruct (Pos.compare_cont Eq mb ma); reflexivity.
Qed.

Lemma SFleb_not_SFltb (a b : spec_float) :
  SFleb a b = true -> SFltb b a = false.
Proof.
  unfold SFleb, SFltb. rewrite (SFcompare_antisym a b).
  destruct (SFcompare a b) as [[ | | ]|]; cbn; congruence.
Qed.

Lemma float_leb_not_ltb (x y : float) :
  PrimFloat.leb x y = true -> PrimFloat.ltb y x = false.
Proof. rewrite leb_spec, ltb_spec. apply SFleb_not_SFltb. Qed.

#[export] Instance float_order : ScalarOrder float := {
  dle := PrimFloat.leb;
  dle_not_dgt := float_leb_not_ltb
}.

Lemma Qcle_not_Qclt (x y : Qc) :
  bool_decide (x <= y)%Qc = true -> bool_decide (y < x)%Qc = false.
Proof.
  intros Hle. apply bool_decide_eq_true_1 in Hle. apply bool_decide_eq_false_2.
  intros Hlt. exact (Qclt_not_le _ _ Hlt Hle).
Qed.

#[export] Instance Qc_order : ScalarOrder Qc := {
  dle x y := bool_decide (x <= y)%Qc;
  dle_not_dgt := Qcle_not_Qclt
}.

(** The binary64 threshold and the value that follows it bracket 1e-20:
    [6646139978924579 * 2^-119 < 10^-20 < 6646139978924580 * 2^-119]. *)
Lemma underflow_cap_brackets :
  Prim2SF (UNDERFLOW_CAP_STIFFNESS : float)
  = S754_finite false 6646139978924579 (-119)
  /\ Prim2SF (next_up (UNDERFLOW_CAP_STIFFNESS : float))
     = S754_finite false 6646139978924580 (-119)
  /\ (6646139978924579 * 10 ^ 20 < 2 ^ 119 < 6646139978924580 * 10 ^ 20)%Z.
Proof. repeat split; vm_compute; reflexivity. Qed.

(** ** The near-zero test *)

Section NearZero.
Context {D : Type} `{ScalarOrder D}.

Lemma existsb_seq_false (p : nat -> bool) (n : nat) :
  (forall i, (i < n)%nat -> p i = false) -> existsb p (seq 0 n) = false.
Proof.
  intros Hp. apply not_true_is_false. intros Hex.
  apply existsb_exists in Hex as (i & Hin & Hi).
  apply in_seq in Hin. rewrite Hp in Hi by lia. discriminate.
Qed.

Lemma vector_is_zero_below (v : list (fvector_t D)) :
  below_cap v -> vector_is_zero v = 0%Z.
Proof.
  intros Hv. unfold vector_is_zero.
  rewrite existsb_seq_false; [reflexivity|].
  intros i Hi. apply existsb_seq_false. intros j Hj.
  apply dle_not_dgt, Hv; assumption.
Qed.

Lemma stiffness_kernel_below (v : list (fvector_t D)) (ep : e_t D) :
  below_cap v -> stiffness_kernel v ep = replicate 8 fzero.
Proof.
  intros Hv. unfold stiffness_kernel.
  rewrite (vector_is_zero_below v Hv). reflexivity.
Qed.

End NearZero.

Lemma int32_small (z : Z) :
  (-2147483648 <= z <= INT32_MAX)%Z -> int32 z = z.
Proof.
  unfold int32, INT32_MAX. intros Hz.
  rewrite Z.mod_small by lia. lia.
Qed.

(** ** Writing and reading the slice of an element *)

Section Slices.
Context {X : Type}.

Lemma store_other (g : nat -> X) (base : nat) (l : list nat) (mem : list X)
    (k : nat) :
  (forall i, i ∈ l -> (base + i)%nat <> k) ->
  foldl (fun mem i => <[(base + i)%nat := g i]> mem) mem l !! k = mem !! k.
Proof.
  revert mem. induction l as [|a l IH]; intros mem Hk; [reflexivity|].
  cbn [foldl]. rewrite IH.
  - apply list_lookup_insert_ne, Hk. left.
  - intros i Hi. apply Hk. right. exact Hi.
Qed.

Lemma store_length (g : nat -> X) (base : nat) (l : list nat) (mem : list X) :
  length (foldl (fun mem i => <[(base + i)%nat := g i]> mem) mem l) = length mem.
Proof.
  revert mem. induction l as [|a l IH]; intros mem; [reflexivity|].
  cbn [foldl]. rewrite IH. apply length_insert.
Qed.

Lemma store_same (g : nat -> X) (base : nat) (l : list nat) (mem : list X)
    (i : nat) :
  i ∈ l -> (base + i < length mem)%nat ->
  foldl (fun mem i => <[(base + i)%nat := g i]> mem) mem l !! (base + i)%nat
  = Some (g i).
Proof.
  revert mem. induction l as [|a l IH]; intros mem Hi Hlen.
  - inversion Hi.
  - cbn [foldl]. destruct (decide (i ∈ l)) as [Hin|Hout].
    + apply IH; [exact Hin|]. rewrite length_insert. exact Hlen.
    + apply elem_of_cons in Hi as [->|Hi]; [|contradiction].
      rewrite store_other.
      * apply list_lookup_insert_eq. exact Hlen.
      * intros j Hj Heq. apply Hout.
        replace a with j by lia. exact Hj.
Qed.

End Slices.

Section NearZeroSites.
Context {D : Type} `{ScalarOrder D}.

(** C3.  When the magnitude of every one of the 24 components gathered for
    an element is at most [UNDERFLOW_CAP_STIFFNESS] (for a binary64 value:
    below 1e-20), [vector_is_zero] answers 0, the three transform steps are
    skipped and the local force keeps the zeros [memset] wrote.  On the
    host the eight vectors then added to the nodes are these zeros; on the
    accelerator the eight cells of the thread's slice hold them. *)
Theorem near_zero_force_is_zero
    (tm1 : list (fvector_t D)) (elemp : elem_t) (ep : e_t D) :
  below_cap (current_displacement tm1 elemp) ->
  vector_is_zero (current_displacement tm1 elemp) = 0%Z
  /\ stiffness_kernel (current_displacement tm1 elemp) ep = replicate 8 fzero
  /\ (forall force,
        sum_to_nodes elemp (element_local_force tm1 elemp ep) force
        = sum_to_nodes elemp (replicate 8 fzero) force)
  /\ (forall (cnt : Z) (mapper : list Z) (elemTableDevice : list elem_t)
             (eTableDevice : list (e_t D)) (mem : list (fvector_t D))
             (tid : Z) (i : nat),
        (0 <= tid < cnt)%Z -> (tid * 8 <= INT32_MAX)%Z ->
        elemTableDevice !!! Z.to_nat (mapper !!! Z.to_nat tid) = elemp ->
        eTableDevice !!! Z.to_nat (mapper !!! Z.to_nat tid) = ep ->
        (i < 8)%nat ->
        (Z.to_nat (tid * 8) + 8 <= length mem)%nat ->
        kernelStiffnessCalcLocal cnt mapper elemTableDevice eTableDevice
          tm1 mem tid !! (Z.to_nat (tid * 8) + i)%nat = Some fzero).
Proof.
  intros Hbelow.
  assert (Hk : element_local_force tm1 elemp ep = replicate 8 fzero)
    by (apply stiffness_kernel_below; exact Hbelow).
  split; [apply vector_is_zero_below; exact Hbelow|].
  split; [exact Hk|]. split; [intros force; rewrite Hk; reflexivity|].
  intros cnt mapper eT cT mem tid i Htid Hmax He Hc Hi Hlen.
  unfold kernelStiffnessCalcLocal.
  destruct (Z.geb_spec tid cnt) as [Hge|_]; [lia|].
  rewrite int32_small by lia. rewrite He, Hc, Hk.
  rewrite (store_same (fun i => replicate 8 fzero !!! i)).
  - f_equal. do 8 (destruct i as [|i]; [reflexivity|]). lia.
  - apply elem_of_seq. lia.
  - lia.
Qed.

End NearZeroSites.

Lemma near_zero_force_is_zero_witness :
  stiffness_kernel (current_displacement tiny_displacement unit_hexahedron)
    float_coefficients = replicate 8 fzero.
Proof.
  refine (proj1 (proj2 (near_zero_force_is_zero tiny_displacement
                          unit_hexahedron float_coefficients _))).
  intros i j Hi Hj.
  do 8 (destruct i as [|i];
        [do 3 (destruct j as [|j]; [reflexivity|]); lia|]).
  lia.
Defined.

(** ** The effective coefficients *)

(** C9.  The three coefficients handed to [firstVector] are
    [-0.5625 * (c2 + 2 * c1)], [-0.5625 * c2] and [-0.5625 * c1]: where the
    transform runs, the local force is [au] of [firstVector] of
    [aTransposeU] with exactly these values.  For [c1 = 2] and [c2 = 1] they
    are [-2.8125], [-0.5625] and [-1.125], in binary64 (no rounding occurs)
    and in exact arithmetic ([-45/16], [-9/16], [-9/8]). *)
Theorem effective_coefficients_values :
  (forall (D : Type) (S : Scalar D) (curDisp : list (fvector_t D)) (ep : e_t D),
      stiffness_kernel curDisp ep
      = if negb (vector_is_zero curDisp =? 0)%Z then
          au (replicate 8 fzero)
             (firstVector (aTransposeU curDisp)
                (dmul (dneg d0_5625) (dadd (c2 ep) (dmul d2 (c1 ep))))
                (dmul (dneg d0_5625) (c2 ep))
                (dmul (dneg d0_5625) (c1 ep)))
        else replicate 8 fzero)
  /\ effective_coefficients float_coefficients
     = ((-2.8125)%float, (-0.5625)%float, (-1.125)%float)
  /\ effective_coefficients exact_coefficients
     = (Q2Qc (-45 # 16), Q2Qc (-9 # 16), Q2Qc (-9 # 8)).
Proof.
  split; [|split].
  - intros D S curDisp ep. reflexivity.
  - reflexivity.
  - unfold effective_coefficients. repeat f_equal; apply Qc_is_canon; reflexivity.
Qed.

(** ** The transform algebra in exact arithmetic *)

Ltac kernel_unfold :=
  cbv [stiffness_kernel aTransposeU arrange reformU atu_block firstVector
       au au_block reformF rigid_translation scale_vectors
       eight_minus_axis_sum axis_sum foldr
       replicate seq flat_map map app lookup_total list_lookup_total
       f f_0 f_1 f_2 Nat.add Nat.mul fzero effective_coefficients c1 c2
       dadd dsub dmul ddiv dneg d0 d2 d3 d9 d0_5625 Qc_scalar].

Lemma Qc_eight : Q2Qc 8 = (1 + 1 + 1 + 1 + 1 + 1 + 1 + 1)%Qc.
Proof. apply Qc_is_canon. reflexivity. Qed.

(** A uniform displacement is sent to zero by [aTransposeU], whatever the
    coefficients that follow. *)
Lemma transform_of_rigid_translation (x y z a c b : Qc) :
  au (replicate 8 fzero)
     (firstVector (aTransposeU (rigid_translation x y z)) a c b)
  = replicate 8 fzero.
Proof.
  kernel_unfold. repeat (f_equal; try (unfold Qcdiv; ring)).
Qed.

Lemma direct_transform_of_rigid_translation (x y z : Qc) :
  au (replicate 8 fzero) (aTransposeU (rigid_translation x y z))
  = replicate 8 fzero.
Proof.
  kernel_unfold. repeat (f_equal; try ring).
Qed.

Lemma au_aTransposeU (un : list (fvector_t Qc)) :
  length un = 8%nat ->
  au (replicate 8 fzero) (aTransposeU un) = eight_minus_axis_sum un.
Proof.
  intros Hlen.
  do 8 (destruct un as [|[? ? ?] un]; [discriminate Hlen|]).
  destruct un; [|discriminate Hlen].
  kernel_unfold. rewrite Qc_eight. repeat (f_equal; try ring).
Qed.

Lemma reform_round_trip {D : Type} `{Scalar D} (u : list D) :
  length u = 24%nat -> reformF (reformU u) = u /\ reformU (reformF u) = u.
Proof.
  intros Hlen.
  do 24 (destruct u as [|? u]; [discriminate Hlen|]).
  destruct u; [|discriminate Hlen].
  split; reflexivity.
Qed.

Lemma scale_by_eight (un : list (fvector_t Qc)) :
  axis_sum un 0 = Q2Qc 0 -> axis_sum un 1 = Q2Qc 0 -> axis_sum un 2 = Q2Qc 0 ->
  eight_minus_axis_sum un = scale_vectors (Q2Qc 8) un.
Proof.
  intros H0 H1 H2. unfold eight_minus_axis_sum, scale_vectors.
  rewrite H0, H1, H2. apply map_ext. intros v. f_equal; ring.
Qed.

Lemma Qc_minus_cancel (a t : Qc) : (a - t = a)%Qc -> t = Q2Qc 0.
Proof.
  intros Heq. transitivity (a - (a - t))%Qc; [ring|]. rewrite Heq. ring.
Qed.

(** C4 (amended).  Reordering to axis-major and back is the identity on a
    24-vector, in both orders, for any scalars.  In exact arithmetic [au]
    applied to the output of [aTransposeU] does not give back a multiple of
    the input: since [aTransposeU] clears the first row of every axis
    block, the result is eight times each component minus the sum of that
    component over the eight corners; it is eight times the input if and
    only if the three axis sums vanish.  In binary64 this fails: the block
    with [2^53], [1], [-2^53], [-1] along x at nodes 0 to 3 has vanishing
    axis sums, and its entry at node 1 comes out as 0, not 8. *)
Theorem transform_round_trip {D : Type} `{Scalar D}
    (u : list D) (un : list (fvector_t Qc)) :
  length u = 24%nat -> length un = 8%nat ->
  reformF (reformU u) = u
  /\ reformU (reformF u) = u
  /\ au (replicate 8 fzero) (aTransposeU un) = eight_minus_axis_sum un
  /\ (au (replicate 8 fzero) (aTransposeU un) = scale_vectors (Q2Qc 8) un
      <-> axis_sum un 0 = Q2Qc 0 /\ axis_sum un 1 = Q2Qc 0
          /\ axis_sum un 2 = Q2Qc 0)
  /\ (forall (big one : Qc) (j : nat),
        axis_sum (cancelling_block big one) j = Q2Qc 0)
  /\ au (replicate 8 fzero)
        (aTransposeU (cancelling_block 0x1p53%float 1%float)) !! 1%nat
     = Some (FV 0%float 0%float 0%float).
Proof.
  intros Hu Hun.
  destruct (reform_round_trip u Hu) as [HFU HUF].
  split; [exact HFU|]. split; [exact HUF|].
  split; [apply au_aTransposeU, Hun|].
  split; [|split].
  - rewrite (au_aTransposeU un Hun). split.
    + intros Heq. destruct un as [|v un']; [discriminate Hun|].
      unfold eight_minus_axis_sum, scale_vectors in Heq.
      cbn [map] in Heq.
      pose proof (f_equal (fun l => match l with
                                    | w :: _ => f_0 w
                                    | [] => Q2Qc 0
                                    end) Heq) as H0.
      pose proof (f_equal (fun l => match l with
                                    | w :: _ => f_1 w
                                    | [] => Q2Qc 0
                                    end) Heq) as H1.
      pose proof (f_equal (fun l => match l with
                                    | w :: _ => f_2 w
                                    | [] => Q2Qc 0
                                    end) Heq) as H2.
      cbv beta iota in H0, H1, H2. cbn [f_0 f_1 f_2] in H0, H1, H2.
      repeat split; eapply Qc_minus_cancel; eassumption.
    + intros (H0 & H1 & H2). apply scale_by_eight; assumption.
  - intros big one j. unfold axis_sum, cancelling_block.
    destruct j as [|[|j]]; cbn; ring.
  - vm_compute. reflexivity.
Qed.

Lemma transform_round_trip_witness :
  reformF (reformU sample_block) = sample_block
  /\ au (replicate 8 fzero) (aTransposeU balanced_displacement)
     = scale_vectors (Q2Qc 8) balanced_displacement.
Proof.
  pose proof (transform_round_trip sample_block balanced_displacement
                eq_refl eq_refl) as (HFU & _ & _ & Hscale & _).
  split; [exact HFU|].
  apply Hscale. repeat split; apply Qc_is_canon; reflexivity.
Defined.

(** C4 as stated fails: a uniform displacement is sent to zero by the
    forward transform, so no common value of the coefficients and no
    non-zero factor give the input back, with or without the combine step. *)
Lemma transform_round_trip_fails :
  ~ transform_round_trip_as_stated /\ ~ direct_round_trip_as_stated.
Proof.
  assert (Hne : forall s : Qc, s <> Q2Qc 0 ->
            scale_vectors s (rigid_translation (Q2Qc 1) (Q2Qc 0) (Q2Qc 0))
            <> replicate 8 fzero).
  { intros s Hs Heq. apply Hs.
    apply (f_equal (fun l => f_0 (l !!! 0%nat))) in Heq.
    cbn in Heq. rewrite <- Heq. ring. }
  split.
  - intros (t & s & Hs & Hall). apply (Hne s Hs).
    rewrite <- (Hall (rigid_translation (Q2Qc 1) (Q2Qc 0) (Q2Qc 0)) eq_refl).
    apply transform_of_rigid_translation.
  - intros (s & Hs & Hall). apply (Hne s Hs).
    rewrite <- (Hall (rigid_translation (Q2Qc 1) (Q2Qc 0) (Q2Qc 0)) eq_refl).
    apply direct_transform_of_rigid_translation.
Qed.

(** ** Rigid translations *)




(** ** The element selector *)

Lemma StronglySorted_seqZ (m n : Z) : StronglySorted Z.lt (seqZ m n).
Proof.
  destruct (Z.le_gt_cases n 0) as [Hn|Hn];
    [rewrite seqZ_nil by lia; constructor|].
  rewrite <- (Z2Nat.id n) by lia.
  generalize (Z.to_nat n) as k. clear n Hn. intros k. revert m.
  induction k as [|k IH]; intros m; [constructor|].
  rewrite seqZ_cons by lia.
  replace (Z.pred (Z.of_nat (S k))) with (Z.of_nat k) by lia.
  constructor; [apply IH|].
  apply list.Forall_forall. intros x Hx. apply elem_of_seqZ in Hx. lia.
Qed.

Lemma StronglySorted_filter {A : Type} (R : relation A) (P : A -> Prop)
    `{forall x, Decision (P x)} (l : list A) :
  StronglySorted R l -> StronglySorted R (filter P l).
Proof.
  induction 1 as [|x l Hl IH Hx]; [constructor|].
  rewrite filter_cons. destruct (decide (P x)); [|exact IH].
  constructor; [exact IH|].
  apply list.Forall_forall. intros y Hy. apply list_elem_of_filter in Hy as [_ Hy].
  revert y Hy. apply list.Forall_forall. exact Hx.
Qed.

Section SelectorFacts.
Variable isNL : mesh_t -> Z -> bool.
Variable myMesh : mesh_t.

Local Abbreviation linear := (fun eindex : Z => isNL myMesh eindex = false).

Lemma count_loop (l : list Z) (c : Z) :
  (0 <= c)%Z -> (c + Z.of_nat (length l) <= INT32_MAX)%Z ->
  foldl (fun count eindex =>
           if negb (isNL myMesh eindex) then int32 (count + 1) else count) c l
  = (c + Z.of_nat (length (filter linear l)))%Z.
Proof.
  revert c. induction l as [|e l IH]; intros c Hc Hmax; cbn [foldl].
  - cbn. lia.
  - cbn [length] in Hmax. rewrite filter_cons.
    destruct (decide (isNL myMesh e = false)) as [He|He];
      [|apply not_false_is_true in He]; rewrite He; cbn [negb];
      [|apply IH; lia].
    rewrite int32_small by (unfold INT32_MAX in *; lia).
    rewrite IH by lia. cbn [length]. lia.
Qed.

(** One turn of the loop of [linear_elements_mapping]. *)
Local Abbreviation fill_step :=
  (fun (state : outcome (list Z * Z)) (eindex : Z) =>
     '(mapper, count) ← state;
     if negb (isNL myMesh eindex)
     then store_and_count mapper count eindex
     else Done (mapper, count)).

Lemma fill_loop_undefined (l : list Z) : foldl fill_step Undefined l = Undefined.
Proof. induction l as [|e l IH]; [reflexivity|]. cbn [foldl]. exact IH. Qed.

(** The loop on a block whose first cells [fp] are filled and whose last
    [m] cells are free: it fills the free cells in order, and is undefined
    as soon as it has more to store than there are free cells. *)
Lemma fill_loop (l fp : list Z) (m : nat) :
  (Z.of_nat (length fp) + Z.of_nat (length l) <= INT32_MAX)%Z ->
  foldl fill_step (Done (fp ++ replicate m 0%Z, Z.of_nat (length fp))) l
  = if decide (length (filter linear l) <= m)%nat
    then Done (fp ++ filter linear l
                  ++ replicate (m - length (filter linear l)) 0%Z,
               Z.of_nat (length fp + length (filter linear l)))
    else Undefined.
Proof.
  revert fp m. induction l as [|e l IH]; intros fp m Hmax; cbn [foldl].
  - cbn. rewrite Nat.sub_0_r, Nat.add_0_r. reflexivity.
  - cbn [length] in Hmax. rewrite filter_cons.
    cbn [mbind outcome_bind].
    destruct (decide (isNL myMesh e = false)) as [He|He];
      [|apply not_false_is_true in He]; rewrite He; cbn [negb].
    2: { apply IH. lia. }
    unfold store_and_count. rewrite length_app, length_replicate.
    cbn [length]. destruct m as [|m].
    + rewrite bool_decide_eq_false_2 by lia.
      rewrite fill_loop_undefined. rewrite decide_False by lia. reflexivity.
    + rewrite bool_decide_eq_true_2 by lia.
      rewrite int32_small by (unfold INT32_MAX in *; lia).
      rewrite Nat2Z.id.
      rewrite insert_app_r_alt by lia. rewrite Nat.sub_diag. cbn [replicate].
      change (<[0%nat:=e]> (0%Z :: replicate m 0%Z)) with (e :: replicate m 0%Z).
      replace (fp ++ e :: replicate m 0%Z) with ((fp ++ [e]) ++ replicate m 0%Z)
        by (rewrite <- app_assoc; reflexivity).
      replace (Z.of_nat (length fp) + 1)%Z with (Z.of_nat (length (fp ++ [e])))
        by (rewrite length_app; cbn; lia).
      rewrite IH by (rewrite length_app; cbn; lia).
      rewrite length_app. cbn [length].
      destruct (decide (length (filter linear l) <= m)%nat) as [Hle|Hgt].
      * rewrite decide_True by lia. rewrite <- app_assoc. cbn [app Nat.sub].
        do 2 f_equal. lia.
      * rewrite decide_False by lia. reflexivity.
Qed.

Lemma linear_elements_count_outcome :
  (lenum myMesh <= INT32_MAX)%Z ->
  linear_elements_count isNL myMesh
  = if (lenum myMesh <? 0)%Z
    then Aborted (Report "linear_elements_count: more elements than expected"
                         None)
    else Done (Z.of_nat (length (linear_indices isNL myMesh))).
Proof.
  intros Hn. unfold linear_elements_count.
  rewrite count_loop by (rewrite ?length_seqZ; unfold INT32_MAX in *; lia).
  change (filter linear (seqZ 0 (lenum myMesh)))
    with (linear_indices isNL myMesh).
  pose proof (length_filter linear (seqZ 0 (lenum myMesh))) as Hle.
  change (filter linear (seqZ 0 (lenum myMesh)))
    with (linear_indices isNL myMesh) in Hle.
  rewrite length_seqZ in Hle.
  destruct (Z.ltb_spec (lenum myMesh) 0) as [Hneg|Hpos];
    destruct (Z.gtb_spec (0 + Z.of_nat (length (linear_indices isNL myMesh)))
                         (lenum myMesh)) as [Hgt|Hngt];
    try lia; [reflexivity|]. f_equal.
Qed.

Lemma linear_elements_count_value :
  (0 <= lenum myMesh <= INT32_MAX)%Z ->
  linear_elements_count isNL myMesh
  = Done (Z.of_nat (length (linear_indices isNL myMesh))).
Proof.
  intros Hn. rewrite linear_elements_count_outcome by lia.
  destruct (Z.ltb_spec (lenum myMesh) 0); [lia|reflexivity].
Qed.

Lemma fill_mapper_value (stored : Z) :
  (lenum myMesh <= INT32_MAX)%Z ->
  fill_mapper isNL myMesh stored
  = if decide (length (linear_indices isNL myMesh) <= Z.to_nat stored)%nat
    then Done (linear_indices isNL myMesh
                 ++ replicate (Z.to_nat stored
                               - length (linear_indices isNL myMesh)) 0%Z,
               Z.of_nat (length (linear_indices isNL myMesh)))
    else Undefined.
Proof.
  intros Hn. unfold fill_mapper.
  pose proof (fill_loop (seqZ 0 (lenum myMesh)) [] (Z.to_nat stored)) as Hb.
  cbn [app length Nat.add] in Hb. change (Z.of_nat 0) with 0%Z in Hb.
  rewrite Hb by (rewrite length_seqZ; unfold INT32_MAX in *; lia).
  reflexivity.
Qed.

(** The three ways [linear_elements_mapping] can end, for any stored
    count. *)
Lemma linear_elements_mapping_outcome (stored : Z) :
  (lenum myMesh <= INT32_MAX)%Z ->
  linear_elements_mapping isNL myMesh stored
  = if decide (length (linear_indices isNL myMesh) <= Z.to_nat stored)%nat
    then if (Z.of_nat (length (linear_indices isNL myMesh)) =? stored)%Z
         then Done (linear_indices isNL myMesh)
         else Aborted (Report
                "linear_elements_mapping: more elements than the count" None)
    else Undefined.
Proof.
  intros Hn. unfold linear_elements_mapping.
  rewrite (fill_mapper_value stored Hn).
  destruct (decide (length (linear_indices isNL myMesh) <= Z.to_nat stored)%nat)
    as [Hle|Hgt]; [|reflexivity].
  cbn [mbind outcome_bind].
  destruct (Z.eqb_spec (Z.of_nat (length (linear_indices isNL myMesh))) stored)
    as [Heq|Hne]; cbn [negb]; [|reflexivity].
  replace (Z.to_nat stored - length (linear_indices isNL myMesh))%nat
    with 0%nat by lia.
  cbn [replicate]. rewrite app_nil_r. reflexivity.
Qed.

Lemma linear_elements_mapping_value :
  (0 <= lenum myMesh <= INT32_MAX)%Z ->
  linear_elements_mapping isNL myMesh
    (Z.of_nat (length (linear_indices isNL myMesh)))
  = Done (linear_indices isNL myMesh).
Proof.
  intros Hn. rewrite linear_elements_mapping_outcome by lia.
  rewrite Nat2Z.id, decide_True by lia. rewrite Z.eqb_refl. reflexivity.
Qed.

End SelectorFacts.

Lemma filter_none {A : Type} (P : A -> Prop) `{forall x, Decision (P x)}
    (l : list A) :
  (forall x, x ∈ l -> ~ P x) -> filter P l = [].
Proof.
  induction l as [|x l IH]; intros Hl; [reflexivity|].
  rewrite filter_cons_False by (apply Hl; left).
  apply IH. intros y Hy. apply Hl. right. exact Hy.
Qed.

Lemma filter_all {A : Type} (P : A -> Prop) `{forall x, Decision (P x)}
    (l : list A) :
  (forall x, x ∈ l -> P x) -> filter P l = l.
Proof.
  induction l as [|x l IH]; intros Hl; [reflexivity|].
  rewrite filter_cons_True by (apply Hl; left).
  f_equal. apply IH. intros y Hy. apply Hl. right. exact Hy.
Qed.

(** C5.  For a mesh of [lenum] elements ([lenum] a non-negative [int32_t]),
    the two passes of the selector complete, and the mapping they leave
    holds, in ascending order and without repetition, exactly the indices
    below [lenum] whose nonlinear predicate is false.  Its length is at
    most [lenum]; it is empty when every element is nonlinear, and is
    [0, 1, ..., lenum - 1] when none is. *)
Theorem linear_mapping_contents
    (isNL : mesh_t -> Z -> bool) (myMesh : mesh_t) :
  (0 <= lenum myMesh <= INT32_MAX)%Z ->
  exists mapper : list Z,
    (count ← linear_elements_count isNL myMesh;
     linear_elements_mapping isNL myMesh count) = Done mapper
    /\ linear_elements_count isNL myMesh = Done (Z.of_nat (length mapper))
    /\ mapper = linear_indices isNL myMesh
    /\ StronglySorted Z.lt mapper
    /\ NoDup mapper
    /\ (forall e : Z,
          e ∈ mapper <-> (0 <= e < lenum myMesh)%Z /\ isNL myMesh e = false)
    /\ (Z.of_nat (length mapper) <= lenum myMesh)%Z
    /\ ((forall e : Z, (0 <= e < lenum myMesh)%Z -> isNL myMesh e = true) ->
        mapper = [])
    /\ ((forall e : Z, (0 <= e < lenum myMesh)%Z -> isNL myMesh e = false) ->
        mapper = seqZ 0 (lenum myMesh)
        /\ Z.of_nat (length mapper) = lenum myMesh).
Proof.
  intros Hn. exists (linear_indices isNL myMesh).
  split.
  { rewrite (linear_elements_count_value isNL myMesh Hn).
    apply (linear_elements_mapping_value isNL myMesh Hn). }
  split; [apply linear_elements_count_value; exact Hn|].
  split; [reflexivity|].
  unfold linear_indices.
  split; [apply StronglySorted_filter, StronglySorted_seqZ|].
  split; [apply list.NoDup_filter, NoDup_seqZ|].
  split.
  { intros e. rewrite list_elem_of_filter, elem_of_seqZ. intuition lia. }
  split.
  { pose proof (length_filter (fun e => isNL myMesh e = false)
                  (seqZ 0 (lenum myMesh))) as Hle.
    rewrite length_seqZ in Hle. lia. }
  split.
  - intros Hall. apply filter_none. intros e He.
    apply elem_of_seqZ in He. rewrite (Hall e) by lia. discriminate.
  - intros Hall. rewrite filter_all.
    + split; [reflexivity|]. rewrite length_seqZ. lia.
    + intros e He. apply elem_of_seqZ in He. apply Hall. lia.
Qed.

Lemma linear_mapping_contents_witness :
  (count ← linear_elements_count odd_is_nonlinear five_elements;
   linear_elements_mapping odd_is_nonlinear five_elements count)
  = Done [0; 2; 4]%Z.
Proof.
  destruct (linear_mapping_contents odd_is_nonlinear five_elements)
    as (mapper & Hrun & _ & Hmap & _).
  - cbn. unfold INT32_MAX. lia.
  - rewrite Hrun, Hmap. reflexivity.
Defined.




(** ** Scatter and gather *)

Section Scatter.
Context {D : Type} `{Scalar D}.

(** One update of the accumulator: [force[fst u] += snd u]. *)
Local Abbreviation scatter_step :=
  (fun (force : list (fvector_t D)) (u : nat * fvector_t D) =>
     alter (fvector_add (snd u)) (fst u) force).

Lemma scatter_lookup (ups : list (nat * fvector_t D))
    (force : list (fvector_t D)) (n : nat) :
  foldl scatter_step force ups !! n
  = (fun a => accumulate a (contributions n ups)) <$> (force !! n).
Proof.
  revert force. induction ups as [|[m v] ups IH]; intros force; cbn [foldl].
  - unfold contributions, accumulate. cbn. destruct (force !! n); reflexivity.
  - rewrite IH. unfold contributions. rewrite filter_cons. cbn [fst snd].
    destruct (decide (m = n)) as [->|Hne].
    + rewrite list_lookup_alter_eq. destruct (force !! n); reflexivity.
    + rewrite list_lookup_alter_ne by exact Hne. reflexivity.
Qed.

Lemma scatter_length (ups : list (nat * fvector_t D))
    (force : list (fvector_t D)) :
  length (foldl scatter_step force ups) = length force.
Proof.
  revert force. induction ups as [|u ups IH]; intros force; cbn [foldl];
    [reflexivity|].
  rewrite IH. apply length_alter.
Qed.

Lemma foldl_flat_map {A B C : Type} (step : A -> B -> A) (g : C -> list B)
    (l : list C) (a : A) :
  foldl (fun a x => foldl step a (g x)) a l = foldl step a (flat_map g l).
Proof.
  revert a. induction l as [|x l IH]; intros a; cbn [foldl flat_map];
    [reflexivity|].
  rewrite foldl_app. apply IH.
Qed.

Lemma foldl_pointwise {A B : Type} (step step' : A -> B -> A) (l : list B)
    (a : A) :
  (forall a x, step a x = step' a x) -> foldl step a l = foldl step' a l.
Proof.
  intros Hext. revert a. induction l as [|x l IH]; intros a; cbn [foldl];
    [reflexivity|].
  rewrite Hext. apply IH.
Qed.

Lemma contributions_app (n : nat) (l k : list (nat * fvector_t D)) :
  contributions n (l ++ k) = contributions n l ++ contributions n k.
Proof. unfold contributions. rewrite list.filter_app. apply fmap_app. Qed.

(** The host evaluator is the scatter of [host_updates]. *)
Lemma compute_addforce_effective_cpu_scatter
    (cnt : Z) (mapper : list Z) (myMesh : mesh_t) (mySolver : mysolver_t D) :
  compute_addforce_effective_cpu cnt mapper myMesh mySolver
  = foldl scatter_step (force mySolver) (host_updates cnt mapper myMesh mySolver).
Proof.
  unfold compute_addforce_effective_cpu, host_updates, sum_to_nodes.
  rewrite <- foldl_flat_map.
  apply foldl_pointwise. intros force lin.
  symmetry. apply (foldl_fmap scatter_step).
Qed.

Lemma kernelStiffnessAddLocal_scatter (nharbored : Z) (rev : list rev_entry_t)
    (lfd fd : list (fvector_t D)) (tid : Z) :
  kernelStiffnessAddLocal nharbored rev lfd fd tid
  = foldl scatter_step fd (gather_updates nharbored rev lfd tid).
Proof.
  unfold kernelStiffnessAddLocal, gather_updates, gathered.
  destruct (tid >=? nharbored)%Z; [reflexivity|].
  rewrite <- list_fmap_compose. symmetry. apply (foldl_fmap scatter_step).
Qed.

Lemma contributions_gather_updates (nharbored : Z) (rev : list rev_entry_t)
    (lfd : list (fvector_t D)) (tid : Z) (n : nat) :
  (0 <= tid)%Z ->
  contributions n (gather_updates nharbored rev lfd tid)
  = if decide (tid = Z.of_nat n /\ (tid < nharbored)%Z)
    then gathered rev lfd n else [].
Proof.
  intros Htid. unfold gather_updates, contributions.
  destruct (Z.geb_spec tid nharbored) as [Hge|Hlt].
  - rewrite decide_False by lia. reflexivity.
  - destruct (decide (tid = Z.of_nat n /\ (tid < nharbored)%Z)) as [[-> _]|Hne].
    + rewrite Nat2Z.id. rewrite filter_all.
      * rewrite <- list_fmap_compose. apply list_fmap_id.
      * intros u Hu. apply list_elem_of_fmap in Hu as (v & -> & _). reflexivity.
    + rewrite filter_none; [reflexivity|].
      intros u Hu. apply list_elem_of_fmap in Hu as (v & -> & _). cbn. lia.
Qed.

Lemma contributions_launch (nharbored : Z) (rev : list rev_entry_t)
    (lfd : list (fvector_t D)) (n : nat) (m len : Z) :
  (0 <= m)%Z ->
  contributions n (flat_map (gather_updates nharbored rev lfd) (seqZ m len))
  = if decide ((m <= Z.of_nat n < m + len)%Z /\ (Z.of_nat n < nharbored)%Z)
    then gathered rev lfd n else [].
Proof.
  destruct (Z.le_gt_cases len 0) as [Hlen|Hlen].
  { intros _. rewrite seqZ_nil by lia. rewrite decide_False by lia. reflexivity. }
  rewrite <- (Z2Nat.id len) by lia.
  generalize (Z.to_nat len) as k. clear len Hlen. intros k. revert m.
  induction k as [|k IH]; intros m Hm.
  - rewrite decide_False by lia. reflexivity.
  - rewrite seqZ_cons by lia.
    replace (Z.pred (Z.of_nat (S k))) with (Z.of_nat k) by lia.
    cbn [flat_map]. rewrite contributions_app, IH by lia.
    rewrite contributions_gather_updates by lia.
    repeat case_decide; try lia; try reflexivity.
    apply app_nil_r.
Qed.

(** What a launch of the gather kernel leaves at node [n]. *)
Lemma gather_launch_lookup (gridsize blocksize : Z) (nharbored : Z)
    (rev : list rev_entry_t) (lfd fd : list (fvector_t D)) (n : nat) :
  launch gridsize blocksize (kernelStiffnessAddLocal nharbored rev lfd) fd !! n
  = (fun a =>
       accumulate a
         (if decide ((Z.of_nat n < gridsize * blocksize)%Z
                     /\ (Z.of_nat n < nharbored)%Z)
          then gathered rev lfd n else [])) <$> (fd !! n).
Proof.
  unfold launch.
  rewrite (foldl_pointwise _ (fun fd tid =>
             foldl scatter_step fd (gather_updates nharbored rev lfd tid)))
    by (intros; apply kernelStiffnessAddLocal_scatter).
  rewrite foldl_flat_map, scatter_lookup, contributions_launch by lia.
  repeat case_decide; try lia; reflexivity.
Qed.

End Scatter.

(** ** The global force accumulator *)

Lemma grid_covers (k blocksize : Z) :
  (0 < blocksize)%Z -> (k < (k / blocksize + 1) * blocksize)%Z.
Proof.
  intros Hb. pose proof (Z.mul_succ_div_gt k blocksize Hb). lia.
Qed.

Lemma accumulate_added_in_order {D : Type} `{Scalar D}
    (a : fvector_t D) (l : list (fvector_t D)) :
  accumulate a l = added_in_order a l.
Proof.
  unfold accumulate, added_in_order. revert a.
  induction l as [|v l IH]; intros a; cbn [foldl]; [reflexivity|].
  rewrite IH. reflexivity.
Qed.

(** The step with the three device operations succeeding, for a grid size
    that is defined. *)
Lemma compute_addforce_effective_gpu_ok {D : Type} `{Scalar D}
    (calcForceBlockSize gridsize : Z)
    (kernel : Z -> Z -> list (fvector_t D) -> list (fvector_t D))
    (myMesh : mesh_t) (m : machine D) :
  grid_size (lenum myMesh) calcForceBlockSize = Some gridsize ->
  compute_addforce_effective_gpu step_ok calcForceBlockSize kernel myMesh m
  = Done (Machine
            (copy_cells (nharbored myMesh)
               (kernel gridsize calcForceBlockSize
                  (copy_cells (nharbored myMesh) (host_force m)
                     (forceDevice m)))
               (host_force m))
            (kernel gridsize calcForceBlockSize
               (copy_cells (nharbored myMesh) (host_force m) (forceDevice m)))
            cudaSuccess).
Proof.
  intros Hgrid. unfold compute_addforce_effective_gpu. rewrite Hgrid.
  reflexivity.
Qed.

(** C7 (amended).  The host evaluator adds to the accumulator: the entry of
    a node after the call is its entry before, to which every corner force
    the linear elements hold for that node has been added in turn,
    component by component.  On the accelerator nothing is replaced by a
    reduction result.  The gather kernel adds as well: the device entry of
    a node after its launch is its entry before, to which the vectors
    gathered for the node have been added.  The driver, when its grid size
    is defined and the three device operations succeed, writes the first
    [nharbored] entries of the host accumulator over the device copy, runs
    its launch, and writes the first [nharbored] entries of the device copy
    over the host accumulator: the result lands in the accumulator of the
    caller. *)
Theorem force_accumulator_update {D : Type} `{Scalar D}
    (cnt : Z) (mapper : list Z) (myMesh : mesh_t) (mySolver : mysolver_t D)
    (gridsize blocksize : Z) (rev : list rev_entry_t)
    (lfd fd : list (fvector_t D))
    (kernel : Z -> Z -> list (fvector_t D) -> list (fvector_t D))
    (m : machine D) (n : nat) :
  compute_addforce_effective_cpu cnt mapper myMesh mySolver !! n
  = (fun a =>
       added_in_order a
         (contributions n (host_updates cnt mapper myMesh mySolver)))
      <$> (force mySolver !! n)
  /\ launch gridsize blocksize
       (kernelStiffnessAddLocal (nharbored myMesh) rev lfd) fd !! n
     = (fun a =>
          added_in_order a
            (if decide ((Z.of_nat n < gridsize * blocksize)%Z
                        /\ (Z.of_nat n < nharbored myMesh)%Z)
             then gathered rev lfd n else [])) <$> (fd !! n)
  /\ (grid_size (lenum myMesh) blocksize = Some gridsize ->
      compute_addforce_effective_gpu step_ok blocksize kernel myMesh m
      = Done (Machine
                (copy_cells (nharbored myMesh)
                   (kernel gridsize blocksize
                      (copy_cells (nharbored myMesh) (host_force m)
                         (forceDevice m)))
                   (host_force m))
                (kernel gridsize blocksize
                   (copy_cells (nharbored myMesh) (host_force m)
                      (forceDevice m)))
                cudaSuccess)).
Proof.
  split.
  { rewrite compute_addforce_effective_cpu_scatter, scatter_lookup.
    destruct (force mySolver !! n); [|reflexivity].
    cbn [fmap option_fmap option_map].
    rewrite accumulate_added_in_order. reflexivity. }
  split.
  { rewrite gather_launch_lookup.
    destruct (fd !! n); [|reflexivity].
    cbn [fmap option_fmap option_map].
    rewrite accumulate_added_in_order. reflexivity. }
  apply compute_addforce_effective_gpu_ok.
Qed.

Lemma force_accumulator_update_witness :
  compute_addforce_effective_cpu 1 [1%Z] two_elements two_elements_loaded
  !! 8%nat
  = Some (FV (-4)%float (-2.25)%float (-2.25)%float)
  /\ launch 1 16 (kernelStiffnessAddLocal 16 node_8_table one_cell_buffer)
       (force two_elements_loaded) !! 8%nat
     = Some (FV 6%float 2%float 3%float)
  /\ compute_addforce_effective_gpu step_ok 32 writes_node_8 two_elements
       (Machine (force two_elements_loaded) (replicate 16 fzero) cudaSuccess)
     = Done (Machine
               (<[8%nat := FV 1%float 2%float 3%float]>
                  (force two_elements_loaded))
               (<[8%nat := FV 1%float 2%float 3%float]>
                  (force two_elements_loaded))
               cudaSuccess).
Proof.
  split; [|split].
  - rewrite (proj1 (force_accumulator_update 1 [1%Z] two_elements
                      two_elements_loaded 1 32 node_8_table one_cell_buffer
                      (force two_elements_loaded) writes_node_8
                      (Machine (force two_elements_loaded)
                         (replicate 16 fzero) cudaSuccess) 8%nat)).
    vm_compute. reflexivity.
  - rewrite (proj1 (proj2 (force_accumulator_update 1 [1%Z] two_elements
                      two_elements_loaded 1 16 node_8_table one_cell_buffer
                      (force two_elements_loaded) writes_node_8
                      (Machine (force two_elements_loaded)
                         (replicate 16 fzero) cudaSuccess) 8%nat))).
    vm_compute. reflexivity.
  - rewrite (proj2 (proj2 (force_accumulator_update 1 [1%Z] two_elements
                      two_elements_loaded 1 32 node_8_table one_cell_buffer
                      (force two_elements_loaded) writes_node_8
                      (Machine (force two_elements_loaded)
                         (replicate 16 fzero) cudaSuccess) 8%nat))
               ltac:(vm_compute; reflexivity)).
    vm_compute. reflexivity.
Defined.

(** C7 as stated fails on the accelerator side: the gather kernel does not
    overwrite the device copy with the reduction result, it adds to what the
    copy held.  Node 8 holds [(5, 0, 0)] and [(1, 2, 3)] is gathered for
    it: the entry after the launch is [(6, 2, 3)], where the reduction
    result alone is [(1, 2, 3)]. *)
Lemma device_copy_not_replaced :
  ~ device_copy_replaced_as_stated
  /\ launch 1 16 (kernelStiffnessAddLocal 16 node_8_table one_cell_buffer)
       (force two_elements_loaded) !! 8%nat
     = Some (FV 6%float 2%float 3%float)
  /\ added_in_order fzero (gathered node_8_table one_cell_buffer 8)
     = FV 1%float 2%float 3%float.
Proof.
  split; [|split; vm_compute; reflexivity].
  intros Hrep.
  assert (Heq := Hrep 1%Z 16%Z 16%Z node_8_table one_cell_buffer
                   (force two_elements_loaded) 8%nat
                   ltac:(lia) ltac:(lia) ltac:(cbn; lia)).
  apply (f_equal (fun o => match o with
                           | Some v => PrimFloat.eqb (f_0 v) 1%float
                           | None => true
                           end)) in Heq.
  vm_compute in Heq. discriminate Heq.
Qed.

(** ** The per-element launch *)

Section CalcLaunch.
Context {D : Type} `{Scalar D}.
Variables (cnt : Z) (mapper : list Z) (elemTableDevice : list elem_t)
          (eTableDevice : list (e_t D)) (tm1Device : list (fvector_t D)).

Local Abbreviation thread :=
  (kernelStiffnessCalcLocal cnt mapper elemTableDevice eTableDevice tm1Device).

(** The local force of the element at position [p] of the mapping. *)
Local Abbreviation slice_of p :=
  (element_local_force tm1Device
     (elemTableDevice !!! Z.to_nat (mapper !!! p))
     (eTableDevice !!! Z.to_nat (mapper !!! p))).

Lemma calc_thread_length (mem : list (fvector_t D)) (tid : Z) :
  length (thread mem tid) = length mem.
Proof.
  unfold kernelStiffnessCalcLocal.
  destruct (tid >=? cnt)%Z; [reflexivity|].
  apply (store_length (fun i => _ !!! i)).
Qed.

Lemma calc_thread_other (mem : list (fvector_t D)) (tid : Z) (p i : nat) :
  (0 <= tid)%Z -> (tid * 8 <= INT32_MAX)%Z -> tid <> Z.of_nat p ->
  (i < 8)%nat ->
  thread mem tid !! (p * 8 + i)%nat = mem !! (p * 8 + i)%nat.
Proof.
  intros Htid Hmax Hne Hi. unfold kernelStiffnessCalcLocal.
  destruct (tid >=? cnt)%Z; [reflexivity|].
  rewrite int32_small by lia.
  apply (store_other (fun i => _ !!! i)).
  intros j Hj. apply elem_of_seq in Hj. lia.
Qed.

Lemma calc_thread_same (mem : list (fvector_t D)) (p i : nat) :
  (Z.of_nat p < cnt)%Z -> (Z.of_nat p * 8 <= INT32_MAX)%Z ->
  (i < 8)%nat -> (p * 8 + i < length mem)%nat ->
  thread mem (Z.of_nat p) !! (p * 8 + i)%nat = Some (slice_of p !!! i).
Proof.
  intros Hp Hmax Hi Hlen. unfold kernelStiffnessCalcLocal.
  destruct (Z.geb_spec (Z.of_nat p) cnt) as [Hge|_]; [lia|].
  rewrite int32_small by lia.
  replace (Z.to_nat (Z.of_nat p * 8)) with (p * 8)%nat by lia.
  rewrite Nat2Z.id.
  apply (store_same (fun i => slice_of p !!! i)).
  - apply elem_of_seq. lia.
  - exact Hlen.
Qed.

Lemma calc_fold_length (l : list Z) (mem : list (fvector_t D)) :
  length (foldl thread mem l) = length mem.
Proof.
  revert mem. induction l as [|t l IH]; intros mem; cbn [foldl]; [reflexivity|].
  rewrite IH. apply calc_thread_length.
Qed.

Lemma calc_fold_other (l : list Z) (mem : list (fvector_t D)) (p i : nat) :
  (forall t, t ∈ l -> (0 <= t)%Z /\ (t * 8 <= INT32_MAX)%Z /\ t <> Z.of_nat p) ->
  (i < 8)%nat ->
  foldl thread mem l !! (p * 8 + i)%nat = mem !! (p * 8 + i)%nat.
Proof.
  revert mem. induction l as [|t l IH]; intros mem Hl Hi; cbn [foldl];
    [reflexivity|].
  rewrite IH by (try assumption; intros t' Ht'; apply Hl; right; exact Ht').
  destruct (Hl t) as (Ht & Hmax & Hne); [left|].
  apply calc_thread_other; assumption.
Qed.

Lemma calc_fold_same (l : list Z) (mem : list (fvector_t D)) (p i : nat) :
  (forall t, t ∈ l -> (0 <= t)%Z /\ (t * 8 <= INT32_MAX)%Z) ->
  Z.of_nat p ∈ l ->
  (Z.of_nat p < cnt)%Z -> (i < 8)%nat -> (p * 8 + i < length mem)%nat ->
  foldl thread mem l !! (p * 8 + i)%nat = Some (slice_of p !!! i).
Proof.
  revert mem. induction l as [|t l IH]; intros mem Hpos Hin Hp Hi Hlen.
  - inversion Hin.
  - cbn [foldl].
    assert (Hpos' : forall t', t' ∈ l -> (0 <= t')%Z /\ (t' * 8 <= INT32_MAX)%Z)
      by (intros t' Ht'; apply Hpos; right; exact Ht').
    destruct (decide (Z.of_nat p ∈ l)) as [Hl|Hl].
    + apply IH; try assumption. rewrite calc_thread_length. exact Hlen.
    + apply elem_of_cons in Hin as [<-|Hin]; [|contradiction].
      rewrite calc_fold_other.
      * apply calc_thread_same; try assumption. apply Hpos. left.
      * intros t' Ht'. destruct (Hpos' t' Ht') as [H0 Hmax].
        repeat split; try assumption. intros ->. contradiction.
      * exact Hi.
Qed.

(** After the per-element launch, the slice at position [p] holds the local
    force of the element at position [p] of the mapping. *)
Lemma calc_launch_lookup (gridsize blocksize : Z) (mem : list (fvector_t D))
    (p i : nat) :
  (Z.of_nat p < cnt)%Z -> (Z.of_nat p < gridsize * blocksize)%Z ->
  (gridsize * blocksize * 8 <= INT32_MAX)%Z ->
  (i < 8)%nat -> (p * 8 + i < length mem)%nat ->
  launch gridsize blocksize thread mem !! (p * 8 + i)%nat
  = Some (slice_of p !!! i).
Proof.
  intros Hp Hgrid Hmax Hi Hlen. unfold launch.
  apply calc_fold_same; try assumption.
  - intros t Ht. apply elem_of_seqZ in Ht. lia.
  - apply elem_of_seqZ. lia.
Qed.

End CalcLaunch.

(** ** Gather against scatter *)

Lemma fvector_add_swap (v w a : fvector_t Qc) :
  fvector_add v (fvector_add w a) = fvector_add w (fvector_add v a).
Proof.
  destruct v, w, a. unfold fvector_add. cbn. f_equal; ring.
Qed.

(** In exact arithmetic the order of the contributions does not matter. *)
Lemma accumulate_perm (l l' : list (fvector_t Qc)) (a : fvector_t Qc) :
  l ≡ₚ l' -> accumulate a l = accumulate a l'.
Proof.
  intros Hperm. revert a. unfold accumulate.
  induction Hperm as [|x l l' _ IH|x y l|l l' l'' _ IH1 _ IH2]; intros a;
    cbn [foldl].
  - reflexivity.
  - apply IH.
  - rewrite fvector_add_swap. reflexivity.
  - rewrite IH1. apply IH2.
Qed.

Lemma map_seq_lookup_total {A B : Type} `{Inhabited A} (g : A -> B)
    (l : list A) (k : nat) :
  (k <= length l)%nat ->
  map (fun i => g (l !!! i)) (seq 0 k) = g <$> take k l.
Proof.
  induction k as [|k IH]; intros Hk; [reflexivity|].
  rewrite seq_S, map_app. cbn [map Nat.add].
  destruct (lookup_lt_is_Some_2 l k) as [x Hx]; [lia|].
  rewrite (take_S_r l k x Hx), fmap_app, IH by lia.
  rewrite (list_lookup_total_correct l k x Hx). reflexivity.
Qed.

Lemma filter_iff_elem {A : Type} (P Q : A -> Prop)
    `{forall x, Decision (P x)} `{forall x, Decision (Q x)} (l : list A) :
  (forall x, x ∈ l -> (P x <-> Q x)) -> filter P l = filter Q l.
Proof.
  induction l as [|x l IH]; intros Hl; [reflexivity|].
  rewrite !filter_cons.
  rewrite IH by (intros y Hy; apply Hl; right; exact Hy).
  destruct (Hl x) as [HPQ HQP]; [left|].
  destruct (decide (P x)), (decide (Q x)); tauto.
Qed.

Lemma contributions_fmap {D A : Type} (n : nat) (k : A -> nat)
    (v : A -> fvector_t D) (ps : list A) :
  contributions n ((fun p => (k p, v p)) <$> ps)
  = v <$> filter (fun p => k p = n) ps.
Proof.
  unfold contributions. induction ps as [|p ps IH]; [reflexivity|].
  rewrite fmap_cons, !filter_cons. cbn [fst].
  destruct (decide (k p = n)); cbn [fmap list_fmap snd];
    rewrite <- IH; reflexivity.
Qed.

Lemma elem_of_corner_pairs (myMesh : mesh_t) (p : nat * nat) :
  p ∈ corner_pairs myMesh
  <-> (fst p < Z.to_nat (lenum myMesh))%nat /\ (snd p < 8)%nat.
Proof.
  unfold corner_pairs. rewrite list_elem_of_In, in_flat_map. split.
  - intros (e & He & Hp). apply in_seq in He. apply in_map_iff in Hp.
    destruct Hp as (o & <- & Ho). apply in_seq in Ho. cbn. lia.
  - intros [He Ho]. exists (fst p). split; [apply in_seq; lia|].
    apply in_map_iff. exists (snd p). split; [destruct p; reflexivity|].
    apply in_seq. lia.
Qed.

Section GatherScatter.
Context {D : Type} `{Scalar D}.
Variables (cnt : Z) (mapper : list Z) (myMesh : mesh_t)
          (mySolver : mysolver_t D) (rev : list rev_entry_t).
Hypothesis Hwf : mesh_wf myMesh.
Hypothesis Hlinear : all_linear myMesh cnt mapper.

(** The local force of element [e]. *)
Local Abbreviation force_of e :=
  (element_local_force (tm1 mySolver) (elemTable myMesh !!! e)
     (eTable mySolver !!! e)).

Lemma host_updates_all_linear :
  host_updates cnt mapper myMesh mySolver
  = (fun p => (Z.to_nat (lnid (elemTable myMesh !!! fst p) !!! snd p),
               force_of (fst p) !!! snd p)) <$> corner_pairs myMesh.
Proof.
  destruct Hlinear as [-> Hid]. unfold host_updates, corner_pairs.
  assert (Hseq : forall e, In e (seq 0 (Z.to_nat (lenum myMesh))) ->
                           (e < Z.to_nat (lenum myMesh))%nat)
    by (intros e He; apply in_seq in He; lia).
  revert Hseq. generalize (seq 0 (Z.to_nat (lenum myMesh))) as l.
  induction l as [|e l IH]; intros Hl; [reflexivity|].
  cbn [flat_map]. rewrite fmap_app, <- IH
    by (intros e' He'; apply Hl; right; exact He').
  f_equal. rewrite (Hid e) by (apply Hl; left; reflexivity).
  rewrite Nat2Z.id. rewrite <- list_fmap_compose. reflexivity.
Qed.

Lemma host_contributions_all_linear (n : nat) :
  contributions n (host_updates cnt mapper myMesh mySolver)
  = (fun p => force_of (fst p) !!! snd p) <$> pairs_of_node myMesh n.
Proof.
  rewrite host_updates_all_linear.
  rewrite (contributions_fmap n
             (fun p => Z.to_nat (lnid (elemTable myMesh !!! fst p) !!! snd p))
             (fun p => force_of (fst p) !!! snd p)).
  f_equal. unfold pairs_of_node. apply filter_iff_elem.
  intros p Hp. apply elem_of_corner_pairs in Hp as [He Ho].
  destruct Hwf as (_ & _ & Hnodes). specialize (Hnodes _ _ He Ho). lia.
Qed.

(** What thread [n] of the gather reads when its entries are the pairs
    [ps] of the mesh: the corner forces of those pairs, in the order of the
    entries. *)
Lemma gathered_of_pairs (blocksize : Z) (lfd : list (fvector_t D)) (n : nat)
    (ps : list (nat * nat)) :
  (0 < blocksize)%Z -> ((lenum myMesh + blocksize) * 8 <= INT32_MAX)%Z ->
  (Z.to_nat (lenum myMesh) * 8 <= length lfd)%nat ->
  (Z.to_nat (count (rev !!! n)) <= length (elements (rev !!! n)))%nat ->
  take (Z.to_nat (count (rev !!! n))) (elements (rev !!! n))
  = rev_elem_of_pair <$> ps ->
  (forall p, p ∈ ps -> p ∈ corner_pairs myMesh) ->
  gathered rev
    (launch (lenum myMesh / blocksize + 1) blocksize
       (kernelStiffnessCalcLocal cnt mapper (elemTable myMesh)
          (eTable mySolver) (tm1 mySolver)) lfd) n
  = (fun p => force_of (fst p) !!! snd p) <$> ps.
Proof.
  intros Hb Hmax Hlen Hc Hentries Hps.
  pose proof (Z.mul_div_le (lenum myMesh) blocksize Hb) as Hdiv.
  unfold gathered.
  rewrite (map_seq_lookup_total
             (fun r => _ !!! Z.to_nat (int32 (elemid r * 8) + offset r)))
    by exact Hc.
  rewrite Hentries, <- list_fmap_compose.
  apply list_fmap_ext.
  intros i p Hp. apply list_elem_of_lookup_2, Hps in Hp.
  apply elem_of_corner_pairs in Hp as [He Ho].
  destruct Hlinear as [Hcnt Hid]. destruct Hwf as (Hle & _ & _).
  cbn [compose rev_elem_of_pair elemid offset].
  rewrite int32_small by lia.
  replace (Z.to_nat (Z.of_nat (fst p) * 8 + Z.of_nat (snd p)))
    with (fst p * 8 + snd p)%nat by lia.
  apply list_lookup_total_correct.
  rewrite calc_launch_lookup.
  - rewrite (Hid (fst p) He), Nat2Z.id. reflexivity.
  - lia.
  - pose proof (grid_covers (lenum myMesh) blocksize Hb). lia.
  - lia.
  - exact Ho.
  - lia.
Qed.

Lemma pairs_of_node_corner (n : nat) (p : nat * nat) :
  p ∈ pairs_of_node myMesh n -> p ∈ corner_pairs myMesh.
Proof. intros Hp. apply list_elem_of_filter in Hp as [_ Hp]. exact Hp. Qed.

Lemma gathered_all_linear (blocksize : Z) (lfd : list (fvector_t D)) (n : nat) :
  rev_complete myMesh rev -> (0 < blocksize)%Z ->
  ((lenum myMesh + blocksize) * 8 <= INT32_MAX)%Z ->
  (Z.to_nat (lenum myMesh) * 8 <= length lfd)%nat ->
  (Z.of_nat n < nharbored myMesh)%Z ->
  gathered rev
    (launch (lenum myMesh / blocksize + 1) blocksize
       (kernelStiffnessCalcLocal cnt mapper (elemTable myMesh)
          (eTable mySolver) (tm1 mySolver)) lfd) n
  ≡ₚ (fun p => force_of (fst p) !!! snd p) <$> pairs_of_node myMesh n.
Proof.
  intros Hrev Hb Hmax Hlen Hn. destruct (Hrev n Hn) as (Hc0 & Hc & Hperm).
  apply Permutation_map_inv in Hperm as (ps & Hentries & Hps).
  rewrite (gathered_of_pairs blocksize lfd n ps Hb Hmax Hlen Hc Hentries).
  - rewrite Hps. reflexivity.
  - intros p Hp. apply (pairs_of_node_corner n). rewrite Hps. exact Hp.
Qed.

Lemma gathered_in_order (blocksize : Z) (lfd : list (fvector_t D)) (n : nat) :
  rev_in_order myMesh rev -> (0 < blocksize)%Z ->
  ((lenum myMesh + blocksize) * 8 <= INT32_MAX)%Z ->
  (Z.to_nat (lenum myMesh) * 8 <= length lfd)%nat ->
  (Z.of_nat n < nharbored myMesh)%Z ->
  gathered rev
    (launch (lenum myMesh / blocksize + 1) blocksize
       (kernelStiffnessCalcLocal cnt mapper (elemTable myMesh)
          (eTable mySolver) (tm1 mySolver)) lfd) n
  = (fun p => force_of (fst p) !!! snd p) <$> pairs_of_node myMesh n.
Proof.
  intros Hrev Hb Hmax Hlen Hn. destruct (Hrev n Hn) as (Hc0 & Hc & Hentries).
  apply (gathered_of_pairs blocksize lfd n _ Hb Hmax Hlen Hc Hentries).
  apply pairs_of_node_corner.
Qed.

End GatherScatter.

(** When no element is nonlinear, the gather over a complete reverse table
    leaves at every node the force the host scatter leaves (exact
    arithmetic: the entries of a node may come in any order). *)
Lemma gather_equals_scatter_all_linear
    (cnt : Z) (mapper : list Z) (myMesh : mesh_t) (mySolver : mysolver_t Qc)
    (rev : list rev_entry_t) (blocksize : Z) (lfd : list (fvector_t Qc))
    (n : nat) :
  mesh_wf myMesh -> all_linear myMesh cnt mapper -> rev_complete myMesh rev ->
  (0 < blocksize)%Z -> ((lenum myMesh + blocksize) * 8 <= INT32_MAX)%Z ->
  (Z.to_nat (lenum myMesh) * 8 <= length lfd)%nat ->
  (Z.of_nat n < nharbored myMesh)%Z ->
  accelerator_force cnt mapper myMesh mySolver rev blocksize lfd !! n
  = compute_addforce_effective_cpu cnt mapper myMesh mySolver !! n.
Proof.
  intros Hwf Hlin Hrev Hb Hmax Hlen Hn.
  unfold accelerator_force, accelerator_step. cbn [snd].
  rewrite gather_launch_lookup, compute_addforce_effective_cpu_scatter,
    scatter_lookup.
  pose proof (grid_covers (nharbored myMesh) blocksize Hb) as Hgrid.
  rewrite decide_True by lia.
  destruct (force mySolver !! n) as [a|]; [|reflexivity].
  cbn [fmap option_fmap option_map]. f_equal.
  rewrite (host_contributions_all_linear cnt mapper myMesh mySolver Hwf Hlin).
  apply accumulate_perm.
  apply (gathered_all_linear cnt mapper myMesh mySolver rev Hwf Hlin);
    assumption.
Qed.

(** With the entries of each node in element order the two paths perform
    the same additions in the same order: the totals are the same values
    in any arithmetic, binary64 included. *)
Lemma gather_equals_scatter_in_order {D : Type} `{Scalar D}
    (cnt : Z) (mapper : list Z) (myMesh : mesh_t) (mySolver : mysolver_t D)
    (rev : list rev_entry_t) (blocksize : Z) (lfd : list (fvector_t D))
    (n : nat) :
  mesh_wf myMesh -> all_linear myMesh cnt mapper -> rev_in_order myMesh rev ->
  (0 < blocksize)%Z -> ((lenum myMesh + blocksize) * 8 <= INT32_MAX)%Z ->
  (Z.to_nat (lenum myMesh) * 8 <= length lfd)%nat ->
  (Z.of_nat n < nharbored myMesh)%Z ->
  accelerator_force cnt mapper myMesh mySolver rev blocksize lfd !! n
  = compute_addforce_effective_cpu cnt mapper myMesh mySolver !! n.
Proof.
  intros Hwf Hlin Hrev Hb Hmax Hlen Hn.
  unfold accelerator_force, accelerator_step. cbn [snd].
  rewrite gather_launch_lookup, compute_addforce_effective_cpu_scatter,
    scatter_lookup.
  pose proof (grid_covers (nharbored myMesh) blocksize Hb) as Hgrid.
  rewrite decide_True by lia.
  rewrite (host_contributions_all_linear cnt mapper myMesh mySolver Hwf Hlin).
  rewrite (gathered_in_order cnt mapper myMesh mySolver rev Hwf Hlin)
    by assumption.
  reflexivity.
Qed.

Lemma reverse_lookup_in_order (myMesh : mesh_t) :
  rev_in_order myMesh (reverse_lookup myMesh).
Proof.
  intros n Hn. unfold reverse_lookup.
  set (entry := fun n : nat =>
         RevEntry (Z.of_nat (length (pairs_of_node myMesh n)))
                  (rev_elem_of_pair <$> pairs_of_node myMesh n)).
  change (map ?g ?l) with (entry <$> l).
  assert (Hentry : (entry <$> seq 0 (Z.to_nat (nharbored myMesh))) !!! n
                   = entry n).
  { apply list_lookup_total_correct. rewrite list_lookup_fmap.
    rewrite (proj2 (lookup_seq 0 _ n n)) by lia. reflexivity. }
  rewrite Hentry. subst entry. cbn [count elements].
  rewrite Nat2Z.id, length_fmap.
  split; [lia|]. split; [lia|].
  apply take_ge. rewrite length_fmap. lia.
Qed.

Lemma reverse_lookup_complete (myMesh : mesh_t) :
  rev_complete myMesh (reverse_lookup myMesh).
Proof.
  intros n Hn.
  destruct (reverse_lookup_in_order myMesh n Hn) as (Hc0 & Hc & Hentries).
  split; [exact Hc0|]. split; [exact Hc|]. rewrite Hentries. reflexivity.
Qed.

Lemma two_elements_wf : mesh_wf two_elements.
Proof.
  split; [cbn; lia|]. split; [cbn; lia|].
  intros e o He Ho. cbn in He.
  do 2 (destruct e as [|e];
        [do 8 (destruct o as [|o]; [cbn; lia|]); lia|]).
  lia.
Qed.

(** C2 at a mesh with a nonlinear element.  In [two_elements] the first
    element is nonlinear, so the mapping is [[1]] and the only thread that
    works writes the force of element 1 into slice 0.  The reverse table of
    node 0 names element 0, corner 0: the gather adds cell 0 of slice 0,
    which is the force of corner 0 of element 1, [(-9, -9/4, -9/4)], to a
    node the host leaves at zero; and node 8, to which the host adds that
    force, receives the untouched slice 1. *)
Theorem gather_differs_from_scatter :
  let mapper := linear_indices first_is_nonlinear two_elements in
  let rev := reverse_lookup two_elements in
  let lfd := replicate 16 fzero in
  mapper = [1%Z]
  /\ rev_complete two_elements rev
  /\ fractions <$> (accelerator_force 1 mapper two_elements two_elements_solver
                      rev 32 lfd !! 0%nat)
     = Some ((-9)%Q, -9 # 4, -9 # 4)
  /\ fractions <$> (compute_addforce_effective_cpu 1 mapper two_elements
                      two_elements_solver !! 0%nat)
     = Some (0%Q, 0%Q, 0%Q)
  /\ fractions <$> (accelerator_force 1 mapper two_elements two_elements_solver
                      rev 32 lfd !! 8%nat)
     = Some (0%Q, 0%Q, 0%Q)
  /\ fractions <$> (compute_addforce_effective_cpu 1 mapper two_elements
                      two_elements_solver !! 8%nat)
     = Some ((-9)%Q, -9 # 4, -9 # 4)
  /\ ~ gather_equals_scatter_as_stated.
Proof.
  cbv zeta.
  split; [reflexivity|]. split; [apply reverse_lookup_complete|].
  split; [vm_compute; reflexivity|]. split; [vm_compute; reflexivity|].
  split; [vm_compute; reflexivity|]. split; [vm_compute; reflexivity|].
  intros Hstated.
  pose proof (Hstated first_is_nonlinear two_elements two_elements_solver
                (reverse_lookup two_elements) 32%Z (replicate 16 fzero) 0%nat
                two_elements_wf (reverse_lookup_complete two_elements)
                ltac:(lia) ltac:(cbn; unfold INT32_MAX; lia)
                ltac:(cbn; lia) ltac:(cbn; lia)) as Heq.
  cbv zeta in Heq. apply (f_equal (fmap fractions)) in Heq.
  vm_compute in Heq. discriminate Heq.
Qed.

(** The same mesh with no nonlinear element: the two paths agree at every
    node. *)
Example gather_equals_scatter_two_elements (n : nat) :
  (n < 16)%nat ->
  accelerator_force 2 [0; 1]%Z two_elements two_elements_solver
    (reverse_lookup two_elements) 32 (replicate 16 fzero) !! n
  = compute_addforce_effective_cpu 2 [0; 1]%Z two_elements
      two_elements_solver !! n.
Proof.
  intros Hn. apply gather_equals_scatter_in_order.
  - apply two_elements_wf.
  - split; [reflexivity|]. intros p Hp. cbn in Hp.
    do 2 (destruct p as [|p]; [reflexivity|]). lia.
  - apply reverse_lookup_in_order.
  - lia.
  - cbn. unfold INT32_MAX. lia.
  - cbn. lia.
  - cbn. lia.
Qed.

(** ** Failures of device operations *)

(** C8 at failing device operations.  Of the three device operations of a
    step only the launch is checked: when it fails the function reports the
    error string and exits.  A failing copy to the device is not noticed
    (the [cudaGetLastError()] before the launch discards its error): the
    launch runs on the former device content and the function returns.  A
    failing copy back is not noticed either: the function returns with the
    host accumulator as it was.  This holds for every block size for which
    the grid size is defined.  In [stiffness_init] both operations are
    checked, but the report of a failed allocation carries no error
    string. *)
Theorem device_failures_unchecked :
  (forall (D : Type) (S : Scalar D) (code : positive)
          (calcForceBlockSize gridsize : Z)
          (kernel : Z -> Z -> list (fvector_t D) -> list (fvector_t D))
          (myMesh : mesh_t) (m : machine D),
      grid_size (lenum myMesh) calcForceBlockSize = Some gridsize ->
      compute_addforce_effective_gpu
        (StepRuntime (cudaFailure code) cudaSuccess cudaSuccess)
        calcForceBlockSize kernel myMesh m
      = Done (Machine
                (copy_cells (nharbored myMesh)
                   (kernel gridsize calcForceBlockSize (forceDevice m))
                   (host_force m))
                (kernel gridsize calcForceBlockSize (forceDevice m))
                cudaSuccess)
      /\ compute_addforce_effective_gpu
           (StepRuntime cudaSuccess cudaSuccess (cudaFailure code))
           calcForceBlockSize kernel myMesh m
         = Done (Machine
                   (host_force m)
                   (kernel gridsize calcForceBlockSize
                      (copy_cells (nharbored myMesh) (host_force m)
                         (forceDevice m)))
                   (cudaFailure code))
      /\ compute_addforce_effective_gpu
           (StepRuntime cudaSuccess (cudaFailure code) cudaSuccess)
           calcForceBlockSize kernel myMesh m
         = Aborted (Report "Calc stiffness local kernel - %s"
                           (Some (cudaFailure code))))
  /\ stiffness_init odd_is_nonlinear (InitRuntime (cudaFailure 2) cudaSuccess)
       32 five_elements
     = Aborted (Report "Failed to allocate mapper memory" None)
  /\ stiffness_init odd_is_nonlinear (InitRuntime cudaSuccess (cudaFailure 11))
       32 five_elements
     = Aborted (Report "Failed to copy mapper to device - %s"
                       (Some (cudaFailure 11))).
Proof.
  split; [|split; reflexivity].
  intros D S code calcForceBlockSize gridsize kernel myMesh m Hgrid.
  unfold compute_addforce_effective_gpu. rewrite Hgrid.
  repeat split; reflexivity.
Qed.

Lemma device_failures_unchecked_witness :
  compute_addforce_effective_gpu
    (StepRuntime (cudaFailure 4) cudaSuccess cudaSuccess) 32 writes_node_8
    two_elements
    (Machine (force two_elements_loaded) (replicate 16 fzero) cudaSuccess)
  = Done (Machine
            (copy_cells 16 (writes_node_8 1 32 (replicate 16 fzero))
               (force two_elements_loaded))
            (writes_node_8 1 32 (replicate 16 fzero)) cudaSuccess).
Proof.
  exact (proj1 (proj1 device_failures_unchecked float float_scalar 4%positive
                  32%Z 1%Z writes_node_8 two_elements
                  (Machine (force two_elements_loaded) (replicate 16 fzero)
                     cudaSuccess) eq_refl)).
Defined.

(** * Further properties of the code *)

(** ** The reorderings *)

Lemma index_permutation (idx : list nat) (n : nat) :
  NoDup idx -> Forall (fun k => k < n)%nat idx -> length idx = n ->
  idx ≡ₚ seq 0 n.
Proof.
  intros Hnd Hlt Hlen. apply submseteq_length_Permutation.
  - apply NoDup_submseteq; [exact Hnd|].
    intros k Hk. apply elem_of_seq.
    rewrite list.Forall_forall in Hlt. specialize (Hlt k Hk). lia.
  - rewrite length_seq. lia.
Qed.

Lemma read_all {A : Type} `{Inhabited A} (u : list A) :
  (fun k => u !!! k) <$> seq 0 (length u) = u.
Proof.
  apply list_eq. intros i. rewrite list_lookup_fmap.
  destruct (decide (i < length u)%nat) as [Hi|Hi].
  - rewrite (proj2 (lookup_seq 0 (length u) i i)) by lia. cbn.
    symmetry. apply list_lookup_lookup_total_lt. exact Hi.
  - rewrite (lookup_ge_None_2 u i) by lia.
    rewrite (lookup_ge_None_2 (seq 0 (length u)) i)
      by (rewrite length_seq; lia).
    reflexivity.
Qed.

(** The reorderings move the 24 scalars without losing or repeating any:
    the output of [reformU], and that of [reformF], is a rearrangement of
    the input. *)
Theorem reform_permutes {D : Type} `{Scalar D} (u : list D) :
  length u = 24%nat -> reformU u ≡ₚ u /\ reformF u ≡ₚ u.
Proof.
  intros Hlen.
  assert (HU : reformU_index ≡ₚ seq 0 24).
  { apply index_permutation; [| |reflexivity];
      match goal with |- ?P => apply (bool_decide_unpack P) end;
      vm_compute; exact I. }
  assert (HF : reformF_index ≡ₚ seq 0 24).
  { apply index_permutation; [| |reflexivity];
      match goal with |- ?P => apply (bool_decide_unpack P) end;
      vm_compute; exact I. }
  split.
  - change (reformU u) with ((fun k => u !!! k) <$> reformU_index).
    rewrite HU, <- Hlen. rewrite read_all. reflexivity.
  - change (reformF u) with ((fun k => u !!! k) <$> reformF_index).
    rewrite HF, <- Hlen. rewrite read_all. reflexivity.
Qed.

Lemma reform_permutes_witness :
  reformU sample_block ≡ₚ sample_block /\ reformF sample_block ≡ₚ sample_block.
Proof. exact (reform_permutes sample_block eq_refl). Defined.

(** ** The transform in exact arithmetic *)

Ltac operator_unfold :=
  cbv [transform_with effective_transform block_add block_dot zip_with
       rigid_rotation corner_x corner_y corner_z fmap list_fmap
       stiffness_kernel aTransposeU arrange reformU atu_block firstVector
       au au_block reformF rigid_translation scale_vectors
       axis_sum foldr
       replicate seq flat_map map app lookup_total list_lookup_total
       f f_0 f_1 f_2 Nat.add Nat.mul fzero effective_coefficients c1 c2
       dadd dsub dmul ddiv dneg d0 d2 d3 d9 d0_5625 Qc_scalar].

Ltac corner_eq :=
  match goal with |- FV _ _ _ = FV _ _ _ => f_equal; ring end.

Ltac block_eq :=
  repeat match goal with
         | |- _ :: _ = _ :: _ => apply (f_equal2 cons); [corner_eq|]
         | |- [] = [] => reflexivity
         end.

Ltac eight_corners un Hlen :=
  do 8 (destruct un as [|[? ? ?] un]; [discriminate Hlen|]);
  destruct un; [clear Hlen|discriminate Hlen].

(** Superposition: the transform of a sum of displacement blocks is the sum
    of the transforms, and the transform of a scaled block is the scaled
    transform. *)
Theorem transform_superposition (u v : list (fvector_t Qc)) (s a c b : Qc) :
  length u = 8%nat -> length v = 8%nat ->
  effective_transform (block_add u v) a c b
  = block_add (effective_transform u a c b) (effective_transform v a c b)
  /\ effective_transform (scale_vectors s u) a c b
     = scale_vectors s (effective_transform u a c b).
Proof.
  intros Hu Hv. eight_corners u Hu. eight_corners v Hv.
  split; operator_unfold; unfold Qcdiv; block_eq.
Qed.

Lemma transform_superposition_witness :
  effective_transform (block_add sample_displacement balanced_displacement)
    (Q2Qc 5) (Q2Qc 1) (Q2Qc 2)
  = block_add
      (effective_transform sample_displacement (Q2Qc 5) (Q2Qc 1) (Q2Qc 2))
      (effective_transform balanced_displacement (Q2Qc 5) (Q2Qc 1) (Q2Qc 2)).
Proof.
  exact (proj1 (transform_superposition sample_displacement
                  balanced_displacement (Q2Qc 3) (Q2Qc 5) (Q2Qc 1) (Q2Qc 2)
                  eq_refl eq_refl)).
Defined.

(** The force depends linearly on the two coefficients of the element: it
    is [c1] times the force for [(c1, c2) = (1, 0)] plus [c2] times the
    force for [(0, 1)]. *)
Theorem transform_linear_in_coefficients
    (un : list (fvector_t Qc)) (k1 k2 : Qc) :
  length un = 8%nat ->
  transform_with un (ET k1 k2)
  = block_add
      (scale_vectors k1 (transform_with un (ET (Q2Qc 1) (Q2Qc 0))))
      (scale_vectors k2 (transform_with un (ET (Q2Qc 0) (Q2Qc 1)))).
Proof.
  intros Hun. eight_corners un Hun.
  operator_unfold; unfold Qcdiv; block_eq.
Qed.

Lemma transform_linear_in_coefficients_witness :
  transform_with sample_displacement exact_coefficients
  = block_add
      (scale_vectors (Q2Qc 2)
         (transform_with sample_displacement (ET (Q2Qc 1) (Q2Qc 0))))
      (scale_vectors (Q2Qc 1)
         (transform_with sample_displacement (ET (Q2Qc 0) (Q2Qc 1)))).
Proof.
  exact (transform_linear_in_coefficients sample_displacement (Q2Qc 2)
           (Q2Qc 1) eq_refl).
Defined.

(** Balance: on every axis the eight corner forces of an element add up to
    zero, whatever the displacements and the coefficients, on both
    branches of the near-zero test. *)
Theorem corner_forces_balance
    (un : list (fvector_t Qc)) (ep : e_t Qc) (j : nat) :
  length un = 8%nat -> axis_sum (stiffness_kernel un ep) j = Q2Qc 0.
Proof.
  intros Hun. unfold stiffness_kernel.
  destruct (negb (vector_is_zero un =? 0)%Z).
  - destruct ep as [k1 k2]. eight_corners un Hun.
    destruct j as [|[|j]]; operator_unfold; unfold Qcdiv; ring.
  - destruct j as [|[|j]]; operator_unfold; ring.
Qed.

Lemma corner_forces_balance_witness :
  axis_sum (stiffness_kernel sample_displacement exact_coefficients) 0
  = Q2Qc 0.
Proof.
  exact (corner_forces_balance sample_displacement exact_coefficients 0
           eq_refl).
Defined.

(** Reciprocity: the transform is a symmetric operator.  The work of the
    forces due to [u] on the displacements [v] is the work of the forces
    due to [v] on the displacements [u]. *)
Theorem transform_reciprocity (u v : list (fvector_t Qc)) (a c b : Qc) :
  length u = 8%nat -> length v = 8%nat ->
  block_dot (effective_transform u a c b) v
  = block_dot u (effective_transform v a c b).
Proof.
  intros Hu Hv. eight_corners u Hu. eight_corners v Hv.
  operator_unfold. unfold Qcdiv. ring.
Qed.

Lemma transform_reciprocity_witness :
  block_dot (effective_transform sample_displacement (Q2Qc 5) (Q2Qc 1) (Q2Qc 2))
    balanced_displacement
  = block_dot sample_displacement
      (effective_transform balanced_displacement (Q2Qc 5) (Q2Qc 1) (Q2Qc 2)).
Proof.
  exact (transform_reciprocity sample_displacement balanced_displacement
           (Q2Qc 5) (Q2Qc 1) (Q2Qc 2) eq_refl eq_refl).
Defined.

Lemma Qc_minus_one : Q2Qc (-1) = (- (1))%Qc.
Proof. apply Qc_is_canon. reflexivity. Qed.

(** An infinitesimal rigid rotation of the element about its centre
    produces no force, whatever the three coefficients. *)
Theorem rigid_rotation_force (wx wy wz a c b : Qc) (ep : e_t Qc) :
  effective_transform (rigid_rotation wx wy wz) a c b = replicate 8 fzero
  /\ stiffness_kernel (rigid_rotation wx wy wz) ep = replicate 8 fzero.
Proof.
  assert (HT : forall a c b,
             effective_transform (rigid_rotation wx wy wz) a c b
             = replicate 8 fzero).
  { intros a' c' b'. operator_unfold. rewrite !Qc_minus_one. unfold Qcdiv.
    block_eq. }
  split; [apply HT|].
  unfold stiffness_kernel.
  destruct (negb (vector_is_zero (rigid_rotation wx wy wz) =? 0)%Z);
    [|reflexivity].
  destruct (effective_coefficients ep) as [[a' c'] b'].
  change (effective_transform (rigid_rotation wx wy wz) a' c' b'
          = replicate 8 fzero).
  exact (HT a' c' b').
Qed.
(** ** The evaluators and the nodes they touch *)

Section ElementLoop.
Context {D : Type} `{Scalar D}.
Variables (mapper : list Z) (myMesh : mesh_t).
Variable local_force : elem_t -> nat -> list (fvector_t D).

(** The loop over the mapping shared by the two host evaluators, for any
    way of computing the local force of an element. *)
Local Abbreviation element_loop cnt force :=
  (foldl (fun force lin_eindex =>
            let elemp := elemTable myMesh !!! Z.to_nat (mapper !!! lin_eindex) in
            sum_to_nodes elemp (local_force elemp lin_eindex) force)
         force (seq 0 cnt)).

Local Abbreviation loop_updates cnt :=
  (flat_map (fun lin_eindex =>
               let elemp := elemTable myMesh !!! Z.to_nat (mapper !!! lin_eindex) in
               map (fun i => (Z.to_nat (lnid elemp !!! i),
                              local_force elemp lin_eindex !!! i))
                   (seq 0 8))
            (seq 0 cnt)).

Lemma element_loop_scatter (cnt : nat) (force : list (fvector_t D)) :
  element_loop cnt force
  = foldl (fun force u => alter (fvector_add (snd u)) (fst u) force)
          force (loop_updates cnt).
Proof.
  rewrite <- foldl_flat_map. apply foldl_pointwise. intros acc lin.
  unfold sum_to_nodes. symmetry.
  apply (foldl_fmap (fun force u => alter (fvector_add (snd u)) (fst u) force)).
Qed.

Lemma element_loop_length (cnt : nat) (force : list (fvector_t D)) :
  length (element_loop cnt force) = length force.
Proof. rewrite element_loop_scatter. apply scatter_length. Qed.

Lemma element_loop_untouched (cnt : nat) (force : list (fvector_t D)) (n : nat) :
  (forall lin i, (lin < cnt)%nat -> (i < 8)%nat ->
     Z.to_nat (lnid (elemTable myMesh !!! Z.to_nat (mapper !!! lin)) !!! i) <> n) ->
  element_loop cnt force !! n = force !! n.
Proof.
  intros Hn. rewrite element_loop_scatter, scatter_lookup.
  unfold contributions. rewrite filter_none.
  - destruct (force !! n); reflexivity.
  - intros u Hu. apply list_elem_of_In, in_flat_map in Hu.
    destruct Hu as (lin & Hlin & Hu). apply in_seq in Hlin.
    apply in_map_iff in Hu. destruct Hu as (i & <- & Hi). apply in_seq in Hi.
    cbn [fst]. apply Hn; lia.
Qed.

End ElementLoop.

(** Frame of the host effective evaluator: the accumulator keeps its
    length, and the entry of a node that is no corner of a linear element is
    left as it was.  With an empty mapping nothing changes. *)
Theorem effective_cpu_frame {D : Type} `{Scalar D}
    (cnt : Z) (mapper : list Z) (myMesh : mesh_t) (mySolver : mysolver_t D)
    (n : nat) :
  untouched cnt mapper myMesh n ->
  length (compute_addforce_effective_cpu cnt mapper myMesh mySolver)
  = length (force mySolver)
  /\ compute_addforce_effective_cpu cnt mapper myMesh mySolver !! n
     = force mySolver !! n
  /\ ((cnt <= 0)%Z ->
      compute_addforce_effective_cpu cnt mapper myMesh mySolver
      = force mySolver).
Proof.
  intros Hn.
  pose (lf := fun (elemp : elem_t) (lin : nat) =>
          element_local_force (tm1 mySolver) elemp
            (eTable mySolver !!! Z.to_nat (mapper !!! lin))).
  split; [apply (element_loop_length mapper myMesh lf)|].
  split; [apply (element_loop_untouched mapper myMesh lf); exact Hn|].
  intros Hc. unfold compute_addforce_effective_cpu.
  replace (Z.to_nat cnt) with 0%nat by lia. reflexivity.
Qed.

Lemma effective_cpu_frame_witness :
  compute_addforce_effective_cpu 1 [1%Z] two_elements two_elements_solver !! 3%nat
  = force two_elements_solver !! 3%nat.
Proof.
  refine (proj1 (proj2 (effective_cpu_frame 1 [1%Z] two_elements
                          two_elements_solver 3%nat _))).
  intros lin i Hlin Hi. cbn in Hlin.
  destruct lin as [|lin]; [|lia].
  do 8 (destruct i as [|i]; [vm_compute; lia|]). lia.
Defined.

(** Frame of the conventional evaluator, whatever [MultAddMatVec],
    [vector_is_all_zero] and the two tables are: the same nodes are left
    alone as by the effective evaluator. *)
Theorem conventional_frame {D : Type} `{Scalar D}
    {fmatrix_t : Type} `{Inhabited fmatrix_t}
    (MultAddMatVec : fmatrix_t -> fvector_t D -> D -> fvector_t D -> fvector_t D)
    (vector_is_all_zero : fvector_t D -> Z)
    (cnt : Z) (mapper : list Z) (myMesh : mesh_t) (mySolver : mysolver_t D)
    (theK1 theK2 : list (list fmatrix_t)) (n : nat) :
  untouched cnt mapper myMesh n ->
  length (compute_addforce_conventional MultAddMatVec vector_is_all_zero
            cnt mapper myMesh mySolver theK1 theK2)
  = length (force mySolver)
  /\ compute_addforce_conventional MultAddMatVec vector_is_all_zero
       cnt mapper myMesh mySolver theK1 theK2 !! n
     = force mySolver !! n.
Proof.
  intros Hn.
  pose (lf := fun (elemp : elem_t) (lin : nat) =>
          conventional_local_force MultAddMatVec vector_is_all_zero
            theK1 theK2 (tm1 mySolver) elemp
            (eTable mySolver !!! Z.to_nat (mapper !!! lin))).
  split; [apply (element_loop_length mapper myMesh lf)|].
  apply (element_loop_untouched mapper myMesh lf). exact Hn.
Qed.

Lemma conventional_frame_witness :
  compute_addforce_conventional MultAddMatVec_exact vector_is_all_zero_exact
    1 [1%Z] two_elements two_elements_solver identity_table identity_table
  !! 3%nat
  = force two_elements_solver !! 3%nat.
Proof.
  refine (proj2 (conventional_frame MultAddMatVec_exact
                   vector_is_all_zero_exact 1 [1%Z] two_elements
                   two_elements_solver identity_table identity_table
                   3%nat _)).
  intros lin i Hlin Hi. cbn in Hlin.
  destruct lin as [|lin]; [|lia].
  do 8 (destruct i as [|i]; [vm_compute; lia|]). lia.
Defined.

(** ** A field at rest *)

Lemma accumulate_zeros (a : fvector_t Qc) (l : list (fvector_t Qc)) :
  Forall (fun v => v = fzero) l -> accumulate a l = a.
Proof.
  unfold accumulate. induction 1 as [|v l -> _ IH]; cbn [foldl]; [reflexivity|].
  rewrite <- IH at 2. f_equal.
  destruct a. unfold fvector_add. cbn. f_equal; ring.
Qed.

(** The loop over the mapping adds nothing when every local force is zero
    (exact arithmetic). *)
Lemma element_loop_zero (mapper : list Z) (myMesh : mesh_t)
    (local_force : elem_t -> nat -> list (fvector_t Qc)) (cnt : nat)
    (force : list (fvector_t Qc)) :
  (forall lin i, (lin < cnt)%nat -> (i < 8)%nat ->
     local_force (elemTable myMesh !!! Z.to_nat (mapper !!! lin)) lin !!! i
     = fzero) ->
  foldl (fun force lin_eindex =>
           let elemp := elemTable myMesh !!! Z.to_nat (mapper !!! lin_eindex) in
           sum_to_nodes elemp (local_force elemp lin_eindex) force)
        force (seq 0 cnt)
  = force.
Proof.
  intros Hzero. apply list_eq. intros n.
  rewrite (element_loop_scatter mapper myMesh local_force), scatter_lookup.
  destruct (force !! n) as [a|]; [|reflexivity].
  cbn [fmap option_fmap option_map]. f_equal. apply accumulate_zeros.
  unfold contributions. apply list.Forall_forall. intros v Hv.
  apply list_elem_of_fmap in Hv as ([m w] & -> & Hu).
  apply list_elem_of_filter in Hu as [_ Hu].
  apply list_elem_of_In, in_flat_map in Hu.
  destruct Hu as (lin & Hlin & Hu). apply in_seq in Hlin.
  apply in_map_iff in Hu. destruct Hu as (i & Heq & Hi). apply in_seq in Hi.
  injection Heq as _ <-. cbn [snd]. apply Hzero; lia.
Qed.

(** A field at rest adds nothing: when the displacements gathered for every
    linear element are within the threshold, the host effective evaluator
    returns the accumulator as it received it (exact arithmetic). *)
Theorem effective_cpu_at_rest
    (cnt : Z) (mapper : list Z) (myMesh : mesh_t) (mySolver : mysolver_t Qc) :
  quiescent cnt mapper myMesh (tm1 mySolver) ->
  compute_addforce_effective_cpu cnt mapper myMesh mySolver = force mySolver.
Proof.
  intros Hrest.
  apply (element_loop_zero mapper myMesh
           (fun elemp lin =>
              element_local_force (tm1 mySolver) elemp
                (eTable mySolver !!! Z.to_nat (mapper !!! lin)))).
  intros lin i Hlin Hi. unfold element_local_force.
  rewrite stiffness_kernel_below by (apply Hrest; lia).
  do 8 (destruct i as [|i]; [reflexivity|]). lia.
Qed.

Lemma effective_cpu_at_rest_witness :
  compute_addforce_effective_cpu 2 [0; 1]%Z two_elements two_elements_at_rest
  = force two_elements_at_rest.
Proof.
  apply effective_cpu_at_rest.
  intros lin Hlin i j Hi Hj. cbn in Hlin.
  do 2 (destruct lin as [|lin];
        [do 8 (destruct i as [|i];
               [do 3 (destruct j as [|j]; [reflexivity|]); lia|]); lia|]).
  lia.
Defined.

Lemma conventional_local_force_skipped {D : Type} `{Scalar D}
    {fmatrix_t : Type} `{Inhabited fmatrix_t}
    (MultAddMatVec : fmatrix_t -> fvector_t D -> D -> fvector_t D -> fvector_t D)
    (vector_is_all_zero : fvector_t D -> Z)
    (theK1 theK2 : list (list fmatrix_t)) (tm1 : list (fvector_t D))
    (elemp : elem_t) (ep : e_t D) :
  (forall j, (j < 8)%nat ->
     vector_is_all_zero (tm1 !!! Z.to_nat (lnid elemp !!! j)) = 0%Z) ->
  conventional_local_force MultAddMatVec vector_is_all_zero theK1 theK2
    tm1 elemp ep
  = replicate 8 fzero.
Proof.
  intros Hzero. unfold conventional_local_force.
  assert (Hrow : forall (i : nat) (l : list nat) (acc : fvector_t D),
    Forall (fun j => j < 8)%nat l ->
    foldl (fun toForce j =>
             let nodeJ := lnid elemp !!! j in
             let myDisp := tm1 !!! Z.to_nat nodeJ in
             if negb (vector_is_all_zero myDisp =? 0)%Z then
               let toForce :=
                 MultAddMatVec ((theK1 !!! i) !!! j) myDisp (dneg (c1 ep))
                   toForce in
               MultAddMatVec ((theK2 !!! i) !!! j) myDisp (dneg (c2 ep)) toForce
             else toForce) acc l = acc).
  { intros i l acc Hl. revert acc.
    induction Hl as [|j l Hj _ IH]; intros acc; cbn [foldl]; [reflexivity|].
    cbv zeta. rewrite (Hzero j Hj). cbn [Z.eqb negb]. apply IH. }
  rewrite (map_ext _ (fun _ => fzero)).
  - reflexivity.
  - intros i. apply Hrow. apply list.Forall_forall. intros j Hj.
    apply elem_of_seq in Hj. lia.
Qed.

(** The conventional evaluator skips the two products for a displacement
    on which [vector_is_all_zero] answers 0.  When it answers 0 at every
    corner of every linear element the local forces are the zeros [memset]
    wrote, whatever [MultAddMatVec] and the two tables are, and the
    evaluator returns the accumulator as it received it (exact
    arithmetic). *)
Theorem conventional_at_rest
    {fmatrix_t : Type} `{Inhabited fmatrix_t}
    (MultAddMatVec :
       fmatrix_t -> fvector_t Qc -> Qc -> fvector_t Qc -> fvector_t Qc)
    (vector_is_all_zero : fvector_t Qc -> Z)
    (cnt : Z) (mapper : list Z) (myMesh : mesh_t) (mySolver : mysolver_t Qc)
    (theK1 theK2 : list (list fmatrix_t)) :
  unmoved vector_is_all_zero cnt mapper myMesh (tm1 mySolver) ->
  (forall lin_eindex : nat, (lin_eindex < Z.to_nat cnt)%nat ->
     conventional_local_force MultAddMatVec vector_is_all_zero theK1 theK2
       (tm1 mySolver)
       (elemTable myMesh !!! Z.to_nat (mapper !!! lin_eindex))
       (eTable mySolver !!! Z.to_nat (mapper !!! lin_eindex))
     = replicate 8 fzero)
  /\ compute_addforce_conventional MultAddMatVec vector_is_all_zero
       cnt mapper myMesh mySolver theK1 theK2
     = force mySolver.
Proof.
  intros Hrest.
  assert (Hlocal : forall lin_eindex : nat, (lin_eindex < Z.to_nat cnt)%nat ->
     conventional_local_force MultAddMatVec vector_is_all_zero theK1 theK2
       (tm1 mySolver)
       (elemTable myMesh !!! Z.to_nat (mapper !!! lin_eindex))
       (eTable mySolver !!! Z.to_nat (mapper !!! lin_eindex))
     = replicate 8 fzero).
  { intros lin Hlin. apply conventional_local_force_skipped.
    intros j Hj. apply Hrest; assumption. }
  split; [exact Hlocal|].
  apply (element_loop_zero mapper myMesh
           (fun elemp lin =>
              conventional_local_force MultAddMatVec vector_is_all_zero
                theK1 theK2 (tm1 mySolver) elemp
                (eTable mySolver !!! Z.to_nat (mapper !!! lin)))).
  intros lin i Hlin Hi. rewrite Hlocal by exact Hlin.
  do 8 (destruct i as [|i]; [reflexivity|]). lia.
Qed.

Lemma conventional_at_rest_witness :
  compute_addforce_conventional MultAddMatVec_exact vector_is_all_zero_exact
    2 [0; 1]%Z two_elements two_elements_at_rest identity_table identity_table
  = force two_elements_at_rest.
Proof.
  refine (proj2 (conventional_at_rest MultAddMatVec_exact
                   vector_is_all_zero_exact 2 [0; 1]%Z two_elements
                   two_elements_at_rest identity_table identity_table _)).
  intros lin j Hlin Hj. cbn in Hlin.
  do 2 (destruct lin as [|lin];
        [do 8 (destruct j as [|j]; [reflexivity|]); lia|]).
  lia.
Defined.

(** ** Threads of a launch *)

Lemma foldl_permutation {A B : Type} (step : A -> B -> A) (P : B -> Prop)
    (l l' : list B) (a : A) :
  (forall a x y, P x -> P y -> step (step a x) y = step (step a y) x) ->
  Forall P l -> l ≡ₚ l' -> foldl step a l = foldl step a l'.
Proof.
  intros Hcomm HP Hperm. revert a.
  induction Hperm as [|x l l' _ IH|x y l|l l' l'' Hp1 IH1 _ IH2]; intros a;
    cbn [foldl].
  - reflexivity.
  - apply IH. inversion HP; assumption.
  - inversion HP as [|? ? Hy HP']; subst. inversion HP' as [|? ? Hx _]; subst.
    rewrite (Hcomm a y x Hy Hx). reflexivity.
  - rewrite IH1 by exact HP. apply IH2. rewrite <- Hp1. exact HP.
Qed.

Section CalcThreads.
Context {D : Type} `{Scalar D}.
Variables (cnt : Z) (mapper : list Z) (elemTableDevice : list elem_t)
          (eTableDevice : list (e_t D)) (tm1Device : list (fvector_t D)).

Local Abbreviation thread :=
  (kernelStiffnessCalcLocal cnt mapper elemTableDevice eTableDevice tm1Device).

Local Abbreviation slice_of p :=
  (element_local_force tm1Device
     (elemTableDevice !!! Z.to_nat (mapper !!! p))
     (eTableDevice !!! Z.to_nat (mapper !!! p))).

(** A thread identifier of a launch whose slice index fits [int32_t]. *)
Local Abbreviation valid_thread :=
  (fun tid : Z => (0 <= tid)%Z /\ (tid * 8 <= INT32_MAX)%Z).

(** The cell [k] after one thread: written when the thread is below the
    count and [k] lies in its slice, left alone otherwise. *)
Lemma calc_thread_lookup (mem : list (fvector_t D)) (tid : Z) (k : nat) :
  valid_thread tid ->
  thread mem tid !! k
  = if decide ((tid < cnt)%Z
               /\ (Z.to_nat tid * 8 <= k < Z.to_nat tid * 8 + 8)%nat
               /\ (k < length mem)%nat)
    then Some (slice_of (Z.to_nat tid) !!! (k - Z.to_nat tid * 8)%nat)
    else mem !! k.
Proof.
  intros [H0 Hmax]. unfold kernelStiffnessCalcLocal.
  destruct (Z.geb_spec tid cnt) as [Hge|Hlt].
  { rewrite decide_False by lia. reflexivity. }
  rewrite int32_small by lia.
  replace (Z.to_nat (tid * 8)) with (Z.to_nat tid * 8)%nat by lia.
  destruct (decide ((Z.to_nat tid * 8 <= k < Z.to_nat tid * 8 + 8)%nat
                    /\ (k < length mem)%nat)) as [[Hk Hlen]|Hout].
  - rewrite decide_True by tauto.
    replace k with (Z.to_nat tid * 8 + (k - Z.to_nat tid * 8))%nat at 1 by lia.
    rewrite (store_same (fun i => slice_of (Z.to_nat tid) !!! i)).
    + reflexivity.
    + apply elem_of_seq. lia.
    + lia.
  - rewrite decide_False by tauto.
    destruct (decide (k < length mem)%nat) as [Hlen|Hlen].
    + apply (store_other (fun i => slice_of (Z.to_nat tid) !!! i)).
      intros j Hj. apply elem_of_seq in Hj. lia.
    + rewrite (lookup_ge_None_2 mem k) by lia.
      apply lookup_ge_None_2.
      rewrite (store_length (fun i => slice_of (Z.to_nat tid) !!! i)). lia.
Qed.

Lemma calc_threads_commute (mem : list (fvector_t D)) (t1 t2 : Z) :
  valid_thread t1 -> valid_thread t2 ->
  thread (thread mem t1) t2 = thread (thread mem t2) t1.
Proof.
  intros H1 H2. apply list_eq. intros k.
  rewrite !calc_thread_lookup, !calc_thread_length by assumption.
  destruct (decide (t1 = t2)) as [->|Hne]; [reflexivity|].
  destruct H1 as [H1 _], H2 as [H2 _].
  repeat case_decide; try reflexivity; lia.
Qed.

Lemma calc_fold_lookup_untouched (l : list Z) (mem : list (fvector_t D))
    (k : nat) :
  Forall valid_thread l -> (Z.to_nat cnt * 8 <= k)%nat ->
  foldl thread mem l !! k = mem !! k.
Proof.
  intros Hl Hk. revert mem.
  induction Hl as [|t l Ht _ IH]; intros mem; cbn [foldl]; [reflexivity|].
  rewrite IH, calc_thread_lookup by exact Ht.
  rewrite decide_False by lia. reflexivity.
Qed.

End CalcThreads.

(** The threads of the per-element kernel write disjoint slices: the memory
    a launch leaves is the same in whatever order its threads run. *)
Theorem calc_launch_any_order {D : Type} `{Scalar D}
    (cnt : Z) (mapper : list Z) (elemTableDevice : list elem_t)
    (eTableDevice : list (e_t D)) (tm1Device mem : list (fvector_t D))
    (gridsize blocksize : Z) (order : list Z) :
  (gridsize * blocksize * 8 <= INT32_MAX)%Z ->
  order ≡ₚ seqZ 0 (gridsize * blocksize) ->
  foldl (kernelStiffnessCalcLocal cnt mapper elemTableDevice eTableDevice
           tm1Device) mem order
  = launch gridsize blocksize
      (kernelStiffnessCalcLocal cnt mapper elemTableDevice eTableDevice
         tm1Device) mem.
Proof.
  intros Hmax Hperm. unfold launch. symmetry.
  apply (foldl_permutation _
           (fun tid : Z => (0 <= tid)%Z /\ (tid * 8 <= INT32_MAX)%Z)).
  - intros a x y Hx Hy. apply calc_threads_commute; assumption.
  - apply list.Forall_forall. intros t Ht. apply elem_of_seqZ in Ht. lia.
  - symmetry. exact Hperm.
Qed.

Lemma calc_launch_any_order_witness :
  foldl (kernelStiffnessCalcLocal 2 [0; 1]%Z (elemTable two_elements)
           (eTable two_elements_solver) (tm1 two_elements_solver))
        (replicate 16 fzero) [3; 1; 0; 2]%Z
  = launch 2 2
      (kernelStiffnessCalcLocal 2 [0; 1]%Z (elemTable two_elements)
         (eTable two_elements_solver) (tm1 two_elements_solver))
      (replicate 16 fzero).
Proof.
  apply calc_launch_any_order.
  - unfold INT32_MAX. lia.
  - change (seqZ 0 (2 * 2)) with [0; 1; 2; 3]%Z.
    apply NoDup_Permutation.
    + match goal with |- ?P => apply (bool_decide_unpack P) end.
      vm_compute. exact I.
    + match goal with |- ?P => apply (bool_decide_unpack P) end.
      vm_compute. exact I.
    + intros x. rewrite !elem_of_cons, !elem_of_nil. intuition lia.
Defined.

(** What the per-element launch leaves: the slice at every position of the
    mapping holds the local force of the element the mapping names there,
    the cells past the last slice are as before, and the buffer keeps its
    length. *)
Theorem calc_launch_result {D : Type} `{Scalar D}
    (cnt : Z) (mapper : list Z) (myMesh : mesh_t)
    (eTableDevice : list (e_t D)) (tm1Device mem : list (fvector_t D))
    (blocksize : Z) (p i k : nat) :
  (0 < blocksize)%Z -> (0 <= cnt <= lenum myMesh)%Z ->
  ((lenum myMesh + blocksize) * 8 <= INT32_MAX)%Z ->
  (Z.to_nat cnt * 8 <= length mem)%nat ->
  (Z.of_nat p < cnt)%Z -> (i < 8)%nat -> (Z.to_nat cnt * 8 <= k)%nat ->
  let mem' :=
    launch (lenum myMesh / blocksize + 1) blocksize
      (kernelStiffnessCalcLocal cnt mapper (elemTable myMesh) eTableDevice
         tm1Device) mem in
  mem' !! (p * 8 + i)%nat
  = Some (element_local_force tm1Device
            (elemTable myMesh !!! Z.to_nat (mapper !!! p))
            (eTableDevice !!! Z.to_nat (mapper !!! p)) !!! i)
  /\ mem' !! k = mem !! k
  /\ length mem' = length mem.
Proof.
  intros Hb Hcnt Hmax Hlen Hp Hi Hk mem'. subst mem'.
  pose proof (grid_covers (lenum myMesh) blocksize Hb) as Hgrid.
  pose proof (Z.mul_div_le (lenum myMesh) blocksize Hb) as Hdiv.
  split; [|split].
  - apply calc_launch_lookup; lia.
  - unfold launch. apply calc_fold_lookup_untouched; [|exact Hk].
    apply list.Forall_forall. intros t Ht. apply elem_of_seqZ in Ht. lia.
  - unfold launch. apply calc_fold_length.
Qed.

Lemma calc_launch_result_witness :
  launch (2 / 32 + 1) 32
    (kernelStiffnessCalcLocal 1 [1%Z] (elemTable two_elements)
       (eTable two_elements_solver) (tm1 two_elements_solver))
    (replicate 16 fzero) !! (0 * 8 + 0)%nat
  = Some (element_local_force (tm1 two_elements_solver)
            (elemTable two_elements !!! Z.to_nat ([1%Z] !!! 0%nat))
            (eTable two_elements_solver !!! Z.to_nat ([1%Z] !!! 0%nat))
          !!! 0%nat).
Proof.
  refine (proj1 (calc_launch_result 1 [1%Z] two_elements
                   (eTable two_elements_solver) (tm1 two_elements_solver)
                   (replicate 16 fzero) 32 0 0 8 _ _ _ _ _ _ _)).
  - lia.
  - cbn. lia.
  - cbn. unfold INT32_MAX. lia.
  - cbn. lia.
  - lia.
  - lia.
  - cbn. lia.
Defined.

Section GatherThreads.
Context {D : Type} `{Scalar D}.
Variables (nharbored : Z) (rev : list rev_entry_t) (lfd : list (fvector_t D)).

Local Abbreviation gather_thread := (kernelStiffnessAddLocal nharbored rev lfd).

(** One thread of the gather kernel changes the entry of its own node, and
    no other. *)
Lemma gather_thread_lookup (fd : list (fvector_t D)) (tid : Z) (n : nat) :
  (0 <= tid)%Z ->
  gather_thread fd tid !! n
  = (fun a =>
       accumulate a
         (if decide (tid = Z.of_nat n /\ (tid < nharbored)%Z)
          then gathered rev lfd n else [])) <$> (fd !! n).
Proof.
  intros Htid.
  rewrite kernelStiffnessAddLocal_scatter, scatter_lookup.
  rewrite contributions_gather_updates by exact Htid. reflexivity.
Qed.

Lemma gather_threads_commute (fd : list (fvector_t D)) (t1 t2 : Z) :
  (0 <= t1)%Z -> (0 <= t2)%Z ->
  gather_thread (gather_thread fd t1) t2
  = gather_thread (gather_thread fd t2) t1.
Proof.
  intros H1 H2. apply list_eq. intros n.
  rewrite !gather_thread_lookup by assumption.
  destruct (decide (t1 = t2)) as [->|Hne]; [reflexivity|].
  destruct (fd !! n) as [a|]; [|reflexivity].
  cbn [fmap option_fmap option_map].
  repeat case_decide; try reflexivity; lia.
Qed.

End GatherThreads.

(** The threads of the gather kernel each add to the entry of their own
    node, reading a buffer none of them writes: the accumulator a launch
    leaves is the same in whatever order its threads run. *)
Theorem gather_launch_any_order {D : Type} `{Scalar D}
    (nharbored : Z) (rev : list rev_entry_t) (lfd fd : list (fvector_t D))
    (gridsize blocksize : Z) (order : list Z) :
  order ≡ₚ seqZ 0 (gridsize * blocksize) ->
  foldl (kernelStiffnessAddLocal nharbored rev lfd) fd order
  = launch gridsize blocksize (kernelStiffnessAddLocal nharbored rev lfd) fd.
Proof.
  intros Hperm. unfold launch. symmetry.
  apply (foldl_permutation _ (fun tid : Z => (0 <= tid)%Z)).
  - intros a x y Hx Hy. apply gather_threads_commute; assumption.
  - apply list.Forall_forall. intros t Ht. apply elem_of_seqZ in Ht. lia.
  - symmetry. exact Hperm.
Qed.

Lemma gather_launch_any_order_witness :
  foldl (kernelStiffnessAddLocal 3 [RevEntry 1 [RevElem 0 0]; RevEntry 1 [RevElem 0 1];
            RevEntry 1 [RevElem 0 2]]
           (replicate 16 (FV (Q2Qc 1) (Q2Qc 0) (Q2Qc 0))))
        (replicate 16 fzero) [2; 0; 3; 1]%Z
  = launch 2 2
      (kernelStiffnessAddLocal 3 [RevEntry 1 [RevElem 0 0]; RevEntry 1 [RevElem 0 1];
            RevEntry 1 [RevElem 0 2]]
         (replicate 16 (FV (Q2Qc 1) (Q2Qc 0) (Q2Qc 0))))
      (replicate 16 fzero).
Proof.
  apply gather_launch_any_order.
  change (seqZ 0 (2 * 2)) with [0; 1; 2; 3]%Z.
  apply NoDup_Permutation.
  - match goal with |- ?P => apply (bool_decide_unpack P) end.
    vm_compute. exact I.
  - match goal with |- ?P => apply (bool_decide_unpack P) end.
    vm_compute. exact I.
  - intros x. rewrite !elem_of_cons, !elem_of_nil. intuition lia.
Defined.

(** ** The step driver and the initialisation, for any runtime *)

(** The grid size [lenum / blocksize + 1] is undefined for a block size of
    0, whatever [lenum] is, and [compute_addforce_effective_gpu] is
    undefined exactly when the grid size is.  Otherwise, whatever the
    runtime answers and whatever error was pending at the call, the
    function exits exactly when the launch fails, and then reports the
    error of the launch.  The error pending at the call never shows: the
    outcome is the same for any of them.  When the function returns, the
    error the runtime remembers is the status of the copy back. *)
Theorem gpu_step_outcome {D : Type} `{Scalar D}
    (rt : step_runtime) (calcForceBlockSize : Z)
    (kernel : Z -> Z -> list (fvector_t D) -> list (fvector_t D))
    (myMesh : mesh_t) (m : machine D) :
  grid_size (lenum myMesh) 0 = None
  /\ (compute_addforce_effective_gpu rt calcForceBlockSize kernel myMesh m
      = Undefined
      <-> grid_size (lenum myMesh) calcForceBlockSize = None)
  /\ (aborts (compute_addforce_effective_gpu rt calcForceBlockSize kernel
                myMesh m)
      <-> grid_size (lenum myMesh) calcForceBlockSize <> None
          /\ launch_status rt <> cudaSuccess)
  /\ (grid_size (lenum myMesh) calcForceBlockSize <> None ->
      launch_status rt <> cudaSuccess ->
      compute_addforce_effective_gpu rt calcForceBlockSize kernel myMesh m
      = Aborted (Report "Calc stiffness local kernel - %s"
                        (Some (launch_status rt))))
  /\ (forall pending : cudaError_t,
        compute_addforce_effective_gpu rt calcForceBlockSize kernel myMesh
          (Machine (host_force m) (forceDevice m) pending)
        = compute_addforce_effective_gpu rt calcForceBlockSize kernel
            myMesh m)
  /\ (forall m' : machine D,
        compute_addforce_effective_gpu rt calcForceBlockSize kernel myMesh m
        = Done m' ->
        last_error m' = to_host_status rt).
Proof.
  split; [reflexivity|].
  destruct rt as [sd sl sh], m as [h d e].
  unfold compute_addforce_effective_gpu, cudaGetLastError, record_error.
  cbn [to_device_status launch_status to_host_status host_force forceDevice
       last_error fst snd].
  destruct (grid_size (lenum myMesh) calcForceBlockSize) as [gridsize|].
  2: { cbn [aborts]. repeat split; try tauto; try congruence. }
  destruct (decide (sl = cudaSuccess)) as [->|Hl].
  - rewrite (bool_decide_eq_true_2 (cudaSuccess = cudaSuccess)) by reflexivity.
    cbn [negb]. split; [|split; [|split; [|split]]].
    + split; [|discriminate].
      intros Hu. destruct (bool_decide (sd = cudaSuccess)); discriminate Hu.
    + destruct (bool_decide (sd = cudaSuccess)); cbn [aborts]; tauto.
    + intros _ Hne. contradiction.
    + intros pending. destruct (bool_decide (sd = cudaSuccess)); reflexivity.
    + intros m' Hm'.
      destruct (bool_decide (sd = cudaSuccess));
        cbn [host_force forceDevice last_error] in Hm';
        destruct (decide (sh = cudaSuccess)) as [->|Hh];
        try (rewrite (bool_decide_eq_true_2 (cudaSuccess = cudaSuccess))
               in Hm' by reflexivity);
        try (rewrite (bool_decide_eq_false_2 (sh = cudaSuccess)) in Hm'
               by exact Hh);
        injection Hm' as <-; reflexivity.
  - rewrite (bool_decide_eq_false_2 (sl = cudaSuccess)) by exact Hl.
    destruct (bool_decide (sd = cudaSuccess));
      cbn [host_force forceDevice last_error];
      rewrite (bool_decide_eq_false_2 (sl = cudaSuccess)) by exact Hl;
      cbn [negb aborts]; repeat split; try tauto; try discriminate;
      intros; reflexivity.
Qed.

(** With a launch that leaves the first [nharbored] cells of the device
    accumulator as they are, a grid size that is defined, and a copy to the
    device and a launch that succeed, the step returns with the host
    accumulator as it received it. *)
Theorem gpu_step_round_trip {D : Type} `{Scalar D}
    (rt : step_runtime) (calcForceBlockSize gridsize : Z)
    (kernel : Z -> Z -> list (fvector_t D) -> list (fvector_t D))
    (myMesh : mesh_t) (m : machine D) :
  grid_size (lenum myMesh) calcForceBlockSize = Some gridsize ->
  to_device_status rt = cudaSuccess -> launch_status rt = cudaSuccess ->
  (nharbored myMesh <= Z.of_nat (length (host_force m)))%Z ->
  (forall fd, take (Z.to_nat (nharbored myMesh))
                (kernel gridsize calcForceBlockSize fd)
              = take (Z.to_nat (nharbored myMesh)) fd) ->
  exists m' : machine D,
    compute_addforce_effective_gpu rt calcForceBlockSize kernel myMesh m
    = Done m'
    /\ host_force m' = host_force m.
Proof.
  destruct rt as [sd sl sh], m as [h d e].
  cbn [to_device_status launch_status host_force].
  intros Hgrid -> -> Hlen Hkernel.
  unfold compute_addforce_effective_gpu, cudaGetLastError, record_error.
  rewrite Hgrid.
  cbn [to_device_status launch_status to_host_status host_force forceDevice
       last_error fst snd].
  rewrite !(bool_decide_eq_true_2 (cudaSuccess = cudaSuccess)) by reflexivity.
  cbn [negb host_force forceDevice last_error].
  eexists. split; [reflexivity|].
  destruct (bool_decide (sh = cudaSuccess)); cbn [host_force]; [|reflexivity].
  unfold copy_cells at 1. rewrite Hkernel. unfold copy_cells.
  rewrite take_app_le by (rewrite length_take; lia).
  rewrite take_take, Nat.min_id. apply take_drop.
Qed.

Lemma gpu_step_round_trip_witness :
  exists m' : machine Qc,
    compute_addforce_effective_gpu step_ok 32
      (fun _ _ fd => <[16%nat := FV (Q2Qc 1) (Q2Qc 1) (Q2Qc 1)]> fd)
      two_elements
      (Machine (force two_elements_at_rest) (replicate 20 fzero)
               (cudaFailure 3)) = Done m'
    /\ host_force m' = force two_elements_at_rest.
Proof.
  apply (gpu_step_round_trip step_ok 32 1
           (fun _ _ fd => <[16%nat := FV (Q2Qc 1) (Q2Qc 1) (Q2Qc 1)]> fd)
           two_elements
           (Machine (force two_elements_at_rest) (replicate 20 fzero)
                    (cudaFailure 3))).
  - reflexivity.
  - reflexivity.
  - reflexivity.
  - cbn. lia.
  - intros fd. apply take_insert_ge. cbn. lia.
Defined.

(** For a mesh of [lenum] elements ([lenum] a non-negative [int32_t]) the
    selector never ends [stiffness_init]: the outcome is decided by the two
    device calls alone, the allocation first.  When both succeed the count
    is the length of the mapping, the device copy of the mapping is the
    mapping, and the block size is what the probe returned. *)
Theorem stiffness_init_outcome
    (isNL : mesh_t -> Z -> bool) (rt : init_runtime) (gpu_get_blocksize : Z)
    (myMesh : mesh_t) :
  (0 <= lenum myMesh <= INT32_MAX)%Z ->
  (malloc_status rt <> cudaSuccess ->
   stiffness_init isNL rt gpu_get_blocksize myMesh
   = Aborted (Report "Failed to allocate mapper memory" None))
  /\ (malloc_status rt = cudaSuccess ->
      mapper_copy_status rt <> cudaSuccess ->
      stiffness_init isNL rt gpu_get_blocksize myMesh
      = Aborted (Report "Failed to copy mapper to device - %s"
                        (Some (mapper_copy_status rt))))
  /\ (malloc_status rt = cudaSuccess ->
      mapper_copy_status rt = cudaSuccess ->
      stiffness_init isNL rt gpu_get_blocksize myMesh
      = Done (Globals (Z.of_nat (length (linear_indices isNL myMesh)))
                      (linear_indices isNL myMesh)
                      (linear_indices isNL myMesh)
                      gpu_get_blocksize)).
Proof.
  intros Hn. unfold stiffness_init.
  rewrite (linear_elements_count_value isNL myMesh Hn).
  cbn [mbind outcome_bind].
  rewrite (linear_elements_mapping_value isNL myMesh Hn).
  cbn [mbind outcome_bind].
  destruct rt as [sm sc]. cbn [malloc_status mapper_copy_status].
  repeat split.
  - intros Hm. rewrite (bool_decide_eq_false_2 _ Hm). reflexivity.
  - intros -> Hc. rewrite (bool_decide_eq_false_2 _ Hc). reflexivity.
  - intros -> ->. reflexivity.
Qed.

Lemma stiffness_init_outcome_witness :
  stiffness_init odd_is_nonlinear (InitRuntime cudaSuccess cudaSuccess) 128
    five_elements
  = Done (Globals 3 [0; 2; 4]%Z [0; 2; 4]%Z 128).
Proof.
  refine (proj2 (proj2 (stiffness_init_outcome odd_is_nonlinear
                          (InitRuntime cudaSuccess cudaSuccess) 128
                          five_elements _)) _ _).
  - cbn. unfold INT32_MAX. lia.
  - reflexivity.
  - reflexivity.
Defined.

(** A negative [lenum] is fatal: the loop of [linear_elements_count] does
    not run, the count stays 0, and 0 is more than [lenum].  The exit is
    taken whatever the predicate is, and [stiffness_init] ends there before
    any device call. *)
Theorem negative_lenum_is_fatal
    (isNL : mesh_t -> Z -> bool) (rt : init_runtime) (gpu_get_blocksize : Z)
    (myMesh : mesh_t) :
  (lenum myMesh < 0)%Z ->
  linear_elements_count isNL myMesh
  = Aborted (Report "linear_elements_count: more elements than expected" None)
  /\ stiffness_init isNL rt gpu_get_blocksize myMesh
     = Aborted (Report "linear_elements_count: more elements than expected"
                       None).
Proof.
  intros Hneg.
  assert (Hcount : linear_elements_count isNL myMesh
    = Aborted (Report "linear_elements_count: more elements than expected"
                      None)).
  { unfold linear_elements_count. rewrite seqZ_nil by lia. cbn [foldl].
    destruct (Z.gtb_spec 0 (lenum myMesh)) as [_|Hge]; [reflexivity|lia]. }
  split; [exact Hcount|].
  unfold stiffness_init. rewrite Hcount. reflexivity.
Qed.

Lemma negative_lenum_is_fatal_witness :
  aborts (stiffness_init odd_is_nonlinear
            (InitRuntime cudaSuccess cudaSuccess) 128 (Mesh (-1) 0 [])).
Proof.
  rewrite (proj2 (negative_lenum_is_fatal odd_is_nonlinear
                    (InitRuntime cudaSuccess cudaSuccess) 128
                    (Mesh (-1) 0 []) ltac:(cbn; lia))).
  exact I.
Defined.

(** ** NaN displacements in binary64 *)

Lemma SFeqb_self_false (s : spec_float) : SFeqb s s = false -> s = S754_nan.
Proof.
  destruct s as [b|b| |b m e]; try destruct b; unfold SFeqb; cbn [SFcompare];
    try discriminate; try reflexivity;
    rewrite Z.compare_refl, Pos.compare_cont_refl; discriminate.
Qed.

Lemma nan_not_above (cap x : float) :
  PrimFloat.is_nan x = true -> PrimFloat.ltb cap (PrimFloat.abs x) = false.
Proof.
  unfold PrimFloat.is_nan. intros Hnan. apply negb_true_iff in Hnan.
  rewrite FloatAxioms.eqb_spec in Hnan. apply SFeqb_self_false in Hnan.
  rewrite ltb_spec, abs_spec, Hnan. unfold SFltb.
  destruct (Prim2SF cap) as [b|b| |b m e]; try destruct b; reflexivity.
Qed.

(** The near-zero test asks whether a magnitude is over the threshold, and
    no comparison with a NaN holds: a block whose components are NaN or
    within the threshold is taken for zero, and its local force is the
    zeros [memset] wrote. *)
Theorem nan_displacement_gives_zero_force
    (v : list (fvector_t float)) (ep : e_t float) :
  nan_or_below_cap v ->
  vector_is_zero v = 0%Z /\ stiffness_kernel v ep = replicate 8 fzero.
Proof.
  intros Hv.
  assert (Hz : vector_is_zero v = 0%Z).
  { unfold vector_is_zero.
    rewrite existsb_seq_false; [reflexivity|].
    intros i Hi. apply existsb_seq_false. intros j Hj.
    destruct (Hv i j Hi Hj) as [Hnan|Hle].
    - apply nan_not_above. exact Hnan.
    - apply float_leb_not_ltb. exact Hle. }
  split; [exact Hz|].
  unfold stiffness_kernel. rewrite Hz. reflexivity.
Qed.

Lemma nan_displacement_gives_zero_force_witness :
  stiffness_kernel nan_block float_coefficients = replicate 8 fzero.
Proof.
  apply (nan_displacement_gives_zero_force nan_block float_coefficients).
  intros i j Hi Hj.
  do 8 (destruct i as [|i];
        [do 3 (destruct j as [|j];
               [first [left; reflexivity | right; reflexivity]|]); lia|]).
  lia.
Defined.

(** ** The order of the mapping *)

Lemma host_updates_mapping {D : Type} `{Scalar D}
    (mapper : list Z) (myMesh : mesh_t) (mySolver : mysolver_t D) :
  host_updates (Z.of_nat (length mapper)) mapper myMesh mySolver
  = flat_map (fun eindex =>
                let elemp := elemTable myMesh !!! Z.to_nat eindex in
                let ep := eTable mySolver !!! Z.to_nat eindex in
                map (fun i => (Z.to_nat (lnid elemp !!! i),
                               element_local_force (tm1 mySolver) elemp ep !!! i))
                    (seq 0 8))
             mapper.
Proof.
  unfold host_updates. rewrite Nat2Z.id, !flat_map_concat_map.
  rewrite (map_seq_lookup_total
             (fun eindex =>
                map (fun i =>
                       (Z.to_nat (lnid (elemTable myMesh !!! Z.to_nat eindex) !!! i),
                        element_local_force (tm1 mySolver)
                          (elemTable myMesh !!! Z.to_nat eindex)
                          (eTable mySolver !!! Z.to_nat eindex) !!! i))
                    (seq 0 8))
             mapper (length mapper)) by lia.
  rewrite firstn_all. reflexivity.
Qed.

(** In exact arithmetic the host effective evaluator does not depend on the
    order in which the mapping lists the linear elements. *)
Theorem effective_cpu_mapping_order
    (mapper mapper' : list Z) (myMesh : mesh_t) (mySolver : mysolver_t Qc) :
  mapper ≡ₚ mapper' ->
  compute_addforce_effective_cpu (Z.of_nat (length mapper)) mapper
    myMesh mySolver
  = compute_addforce_effective_cpu (Z.of_nat (length mapper')) mapper'
      myMesh mySolver.
Proof.
  intros Hperm. apply list_eq. intros n.
  rewrite !compute_addforce_effective_cpu_scatter, !scatter_lookup.
  destruct (force mySolver !! n) as [a|]; [|reflexivity].
  cbn [fmap option_fmap option_map]. f_equal. apply accumulate_perm.
  rewrite !host_updates_mapping. unfold contributions.
  apply fmap_Permutation, filter_Permutation.
  apply Permutation_flat_map. exact Hperm.
Qed.

Lemma effective_cpu_mapping_order_witness :
  compute_addforce_effective_cpu 2 [0; 1]%Z two_elements two_elements_moving
  = compute_addforce_effective_cpu 2 [1; 0]%Z two_elements two_elements_moving.
Proof.
  apply (effective_cpu_mapping_order [0; 1]%Z [1; 0]%Z two_elements
           two_elements_moving).
  apply perm_swap.
Defined.


(** ** Initialisation followed by a step on the host *)

Lemma stiffness_init_done (isNL : mesh_t -> Z -> bool) (rt : init_runtime)
    (gpu_get_blocksize : Z) (myMesh : mesh_t) (g : stiffness_globals) :
  (0 <= lenum myMesh <= INT32_MAX)%Z ->
  stiffness_init isNL rt gpu_get_blocksize myMesh = Done g ->
  g = Globals (Z.of_nat (length (linear_indices isNL myMesh)))
              (linear_indices isNL myMesh) (linear_indices isNL myMesh)
              gpu_get_blocksize.
Proof.
  intros Hn. unfold stiffness_init.
  rewrite (linear_elements_count_value isNL myMesh Hn).
  cbn [mbind outcome_bind].
  rewrite (linear_elements_mapping_value isNL myMesh Hn).
  cbn [mbind outcome_bind].
  destruct (negb (bool_decide (malloc_status rt = cudaSuccess)));
    [discriminate|].
  destruct (negb (bool_decide (mapper_copy_status rt = cudaSuccess)));
    [discriminate|].
  intros Hg. injection Hg as <-. reflexivity.
Qed.

(** With the count and the mapping [stiffness_init] leaves, the host
    effective evaluator leaves alone every node that is a corner of
    nonlinear elements only. *)
Theorem nonlinear_elements_left_out {D : Type} `{Scalar D}
    (isNL : mesh_t -> Z -> bool) (rt : init_runtime) (gpu_get_blocksize : Z)
    (myMesh : mesh_t) (mySolver : mysolver_t D) (g : stiffness_globals)
    (n : nat) :
  (0 <= lenum myMesh <= INT32_MAX)%Z ->
  stiffness_init isNL rt gpu_get_blocksize myMesh = Done g ->
  (forall (eindex : Z) (i : nat),
     (0 <= eindex < lenum myMesh)%Z -> isNL myMesh eindex = false ->
     (i < 8)%nat ->
     Z.to_nat (lnid (elemTable myMesh !!! Z.to_nat eindex) !!! i) <> n) ->
  compute_addforce_effective_cpu (myLinearElementsCount g)
    (myLinearElementsMapper g) myMesh mySolver !! n
  = force mySolver !! n.
Proof.
  intros Hn Hinit Hnode.
  rewrite (stiffness_init_done isNL rt gpu_get_blocksize myMesh g Hn Hinit).
  cbn [myLinearElementsCount myLinearElementsMapper].
  apply (element_loop_untouched (linear_indices isNL myMesh) myMesh
           (fun elemp lin =>
              element_local_force (tm1 mySolver) elemp
                (eTable mySolver
                   !!! Z.to_nat (linear_indices isNL myMesh !!! lin)))).
  intros lin i Hlin Hi. rewrite Nat2Z.id in Hlin.
  assert (Hin : linear_indices isNL myMesh !!! lin
                ∈ linear_indices isNL myMesh)
    by (apply list_elem_of_lookup_total_2; exact Hlin).
  apply list_elem_of_filter in Hin as [Hlinear Hrange].
  apply elem_of_seqZ in Hrange.
  apply Hnode; [lia|exact Hlinear|exact Hi].
Qed.

Lemma nonlinear_elements_left_out_witness :
  compute_addforce_effective_cpu 1 [1%Z] two_elements two_elements_moving
  !! 3%nat
  = force two_elements_moving !! 3%nat.
Proof.
  apply (nonlinear_elements_left_out first_is_nonlinear
           (InitRuntime cudaSuccess cudaSuccess) 128 two_elements
           two_elements_moving (Globals 1 [1%Z] [1%Z] 128) 3%nat).
  - cbn. unfold INT32_MAX. lia.
  - reflexivity.
  - intros eindex i He Hlinear Hi. cbn in He.
    assert (Hcase : eindex = 0%Z \/ eindex = 1%Z) by lia.
    destruct Hcase as [-> | ->]; [discriminate Hlinear|].
    do 8 (destruct i as [|i]; [vm_compute; lia|]). lia.
Defined.

